(** * bolt/expm.py: matrix exponential by scaling and squaring

    A shallow embedding of [src/bolt/expm.py] (the Higham 2005/2009
    algorithm with Pade approximants of degree 3, 5, 7, 9 and 13) and the
    properties its specification states about it.

    Modelling choices, all of them visible in the definitions below:

    - scalars live in an archimedean real field [F]: the linear-algebra
      library is taken with its contract of exact real arithmetic, so
      rounding, overflow, [inf] and [nan] are outside the model (and so are
      complex entries);
    - matrices are MathComp matrices ['M[F]_(m,n)]; the driver and the
      helper work on ['M[F]_n.+1], the n x n matrices with n >= 1 of the
      data model; the one function that validates shapes at run time,
      [_onenorm_matrix_power_nnm], takes an [ndarray] (a shape and an item
      function);
    - [np.log2] and the float power [**] have no exact counterpart in a
      field: they are parameters [log2] and [fpow] of the development;
    - Python exceptions are values of [exn]; code that can raise returns a
      [result];
    - the lazily filled cache of [_ExpmPadeHelper] is explicit state,
      threaded through the driver by the monad [M], next to a ghost log of
      the calls the driver makes (which evaluator, the solve, each
      squaring), so that statements about the branch taken are statements
      about a run. *)

Set Warnings "-notation-overridden,-ambiguous-paths,-notation-incompatible-prefix,-rewrite-rw".
From HB Require Import structures.
From Stdlib Require Import BinNums BinPosDef String.
From mathcomp Require Import boot order.
From mathcomp Require Import ssralg ssrnum ssrint rat matrix archimedean.
From mathcomp Require Import binnums.

Set Implicit Arguments.
Unset Strict Implicit.
Unset Printing Implicit Defensive.

Import Order.Theory GRing.Theory Num.Theory.
Local Open Scope ring_scope.

(** ** Exceptions and results *)

Inductive exn : Type :=
  | ValueError (msg : string)
  | LinAlgError (msg : string)
  | FloatingPointError (msg : string).

Inductive result (T : Type) : Type :=
  | Ok (x : T)
  | Raise (e : exn).

Arguments Ok {T} x.
Arguments Raise {T} e.

Definition rbind (T U : Type) (r : result T) (k : T -> result U) : result U :=
  match r with
  | Ok x => k x
  | Raise e => Raise e
  end.

Notation "x <-- r ;; k" := (rbind r (fun x => k))
  (at level 100, r at next level, right associativity,
   format "'[v' x  <--  r  ;;  '/' k ']'").

Definition is_ok (T : Type) (r : result T) : bool :=
  if r is Ok _ then true else false.

Definition raises (T : Type) (r : result T) : bool := ~~ is_ok r.

(** ** Numeric literals

    The source's float literals are decimal numbers; they are read as the
    rationals they denote.  [of_pos] reads a binary numeral into the field
    (a unary [nat] literal of seventeen digits cannot be written). *)

Section Literals.

Variable F : archiRealFieldType.

Fixpoint of_pos (p : positive) : F :=
  match p with
  | xH => 1
  | xO q => of_pos q *+ 2
  | xI q => of_pos q *+ 2 + 1
  end.

(** [sci m e] is the decimal literal [m * 10^-e], e.g.
    [1.495585217958292e-002 = sci 1495585217958292 17]. *)
Definition sci (m : positive) (e : nat) : F := of_pos m / 10%:R ^+ e.

End Literals.

Arguments of_pos {F} p%_positive.
Arguments sci {F} m%_positive e%_N.

(** ** Python scalars *)

Section PyScalars.

Variable F : archiRealFieldType.

(** [int(x)]: truncation towards zero. *)
Definition pyint (x : F) : int :=
  if 0 <= x then Num.floor x else Num.ceil x.

(** [len(range(s))]: the number of iterations of [for i in range(s)]. *)
Definition range_len (s : int) : nat :=
  if s is Posz k then k else 0%N.

(** A division whose divisor is zero: numpy answers [inf] or [nan] with a
    RuntimeWarning, values the exact model does not have; the model stops
    there with [FloatingPointError] (what numpy raises under
    [np.seterr(all='raise')]). *)
Definition pydiv (x y : F) : result F :=
  if y == 0 then Raise (FloatingPointError "divide by zero") else Ok (x / y).

End PyScalars.

Notation "x /? y" := (pydiv x y) (at level 40, left associativity).

(** ** numpy arrays and the primitives the source calls *)

Section Numpy.

Variable F : archiRealFieldType.

(** An n-dimensional array: its [shape] and its items by index.  Only the
    shape is inspected for arrays that are not 2-dimensional. *)
Record ndarray : Type := NdArray {
  shape : seq nat;
  item : seq nat -> F
}.

Definition to_mx (m n : nat) (a : ndarray) : 'M[F]_(m, n) :=
  \matrix_(i, j) item a [:: nat_of_ord i; nat_of_ord j].

Definition of_mx (m n : nat) (A : 'M[F]_(m, n)) : ndarray :=
  NdArray [:: m; n]
    (fun ix =>
       match insub (nth 0%N ix 0), insub (nth 0%N ix 1) with
       | Some i, Some j => A i j
       | _, _ => 0
       end).

(** [abs(A)], entrywise. *)
Definition np_abs (m n : nat) (A : 'M[F]_(m, n)) : 'M[F]_(m, n) :=
  map_mx Num.norm A.

(** [np.ones((n, 1), dtype=float)]. *)
Definition np_ones (n : nat) : 'cV[F]_n := const_mx 1.

(** [np.max(v)] of a non-empty column vector. *)
Definition np_max (n : nat) (v : 'cV[F]_n.+1) : F :=
  \big[Num.max/v ord0 ord0]_(i < n.+1) v i ord0.

(** [np.dot(A, B)]. *)
Definition np_dot (m n p : nat) (A : 'M[F]_(m, n)) (B : 'M[F]_(n, p)) :=
  A *m B.

(** [np.linalg.norm(A, 1)] of a matrix with at least one column: the
    largest absolute column sum. *)
Definition colsum (m n : nat) (A : 'M[F]_(m, n)) (j : 'I_n) : F :=
  \sum_(i < m) `|A i j|.

Definition linalg_norm1 (m n : nat) (A : 'M[F]_(m, n.+1)) : F :=
  \big[Num.max/colsum A ord0]_(j < n.+1) colsum A j.

(** [np.linalg.solve(Q, P)] under its contract in exact arithmetic (the
    linear-algebra library is an external collaborator of the
    specification, with a stable solve of [Q X = P]): the solution when
    [Q] is invertible, [LinAlgError] when it is singular. *)
Definition linalg_solve (n : nat) (Q P : 'M[F]_n) : result 'M[F]_n :=
  if Q \in unitmx then Ok (invmx Q *m P)
  else Raise (LinAlgError "Singular matrix").

End Numpy.

(** ** The module-level helpers *)

Section Helpers.

Variable F : archiRealFieldType.
Variable log2 : F -> F.

(** [_smart_matrix_product(A, B, structure)] (expm.py, lines 5-6): the
    structure hint is ignored. *)
Definition _smart_matrix_product (n : nat) (A B : 'M[F]_n)
    (structure : option string) : 'M[F]_n :=
  np_dot A B.

(** [_onenorm(A)] (lines 9-10). *)
Definition _onenorm (n : nat) (A : 'M[F]_n.+1) : F := linalg_norm1 A.

(** [_onenorm_matrix_power_nnm(A, p)] (lines 286-313).  [p] is any Python
    number, read as a real; [A] is any array.  On a 0 x 0 array both
    checks pass and [np.max] raises on the empty vector. *)
Definition _onenorm_matrix_power_nnm (A : ndarray F) (p : F) : result F :=
  if ((pyint p)%:~R != p) || (p < 0) then
    Raise (ValueError "expected non-negative integer p")
  else
    let p := pyint p in
    if (size (shape A) != 2%N)
       || (nth 0%N (shape A) 0 != nth 0%N (shape A) 1) then
      Raise (ValueError "expected A to be like a square matrix")
    else
      match nth 0%N (shape A) 0 with
      | 0%N =>
          Raise (ValueError "zero-size array to reduction operation maximum")
      | n.+1 =>
          let v := np_ones F n.+1 in
          let M := (to_mx n.+1 n.+1 A)^T in
          let v := iter (range_len p) (fun v => np_dot M v) v in
          Ok (np_max v)
      end.

(** [_ell(A, m)] (lines 250-283); [not A_abs_onenorm] is the test for
    zero. *)
Definition _ell (n : nat) (A : 'M[F]_n.+1) (m : nat) : result int :=
  let choose_2m_m := 'C((2 * m)%N, m) in
  let abs_c_recip : F := choose_2m_m%:R * ((2 * m + 1)%N`!)%:R in
  let u : F := 2 ^- 53 in
  A_abs_onenorm <-- _onenorm_matrix_power_nnm (of_mx (np_abs A)) (2 * m + 1)%N%:R ;;
  if A_abs_onenorm == 0 then Ok 0
  else
    alpha <-- A_abs_onenorm /? (_onenorm A * abs_c_recip) ;;
    x <-- alpha /? u ;;
    let log2_alpha_div_u := log2 x in
    y <-- log2_alpha_div_u /? (2 * m)%N%:R ;;
    let value := Num.ceil y in
    Ok (Num.max value 0).

(** [_solve_P_Q(U, V, structure)] (lines 228-247). *)
Definition _solve_P_Q (n : nat) (U V : 'M[F]_n)
    (structure : option string) : result 'M[F]_n :=
  let P := U + V in
  let Q := - U + V in
  linalg_solve Q P.

End Helpers.

(** ** The state of a run: the helper's cache and the log of calls *)

(** The calls a run records, in the order they are made: the evaluator
    chosen, [_solve_P_Q], and each [X.dot(X)] of the squaring loop. *)
Inductive call : Type :=
  | call_pade3
  | call_pade5
  | call_pade7
  | call_pade9
  | call_pade13_scaled (s : int)
  | call_solve_P_Q
  | call_dot.

Section PadeState.

Variable F : archiRealFieldType.
Variable n : nat.

(** The instance attributes of [_ExpmPadeHelper], in the order [__init__]
    assigns them; [None] is Python's [None]. *)
Record _ExpmPadeHelper : Type := Helper {
  self_A : 'M[F]_n.+1;
  _A2 : option 'M[F]_n.+1;
  _A4 : option 'M[F]_n.+1;
  _A6 : option 'M[F]_n.+1;
  _A8 : option 'M[F]_n.+1;
  _A10 : option 'M[F]_n.+1;
  _d4_exact : option F;
  _d6_exact : option F;
  _d8_exact : option F;
  _d10_exact : option F;
  _d4_approx : option F;
  _d6_approx : option F;
  _d8_approx : option F;
  _d10_approx : option F;
  ident : 'M[F]_n.+1;
  structure : option string;
  use_exact_onenorm : bool
}.

(** [_ExpmPadeHelper.__init__(A, use_exact_onenorm)]. *)
Definition __init__ (A : 'M[F]_n.+1) (use_exact_onenorm : bool) :
    _ExpmPadeHelper :=
  Helper A None None None None None None None None None None None None None
    1%:M None use_exact_onenorm.

(** Attribute assignment, one function per cached attribute. *)
Definition set_A2 (v : 'M[F]_n.+1) (h : _ExpmPadeHelper) :=
  let: Helper a _ a4 a6 a8 a10 d4 d6 d8 d10 e4 e6 e8 e10 i s u := h in
  Helper a (Some v) a4 a6 a8 a10 d4 d6 d8 d10 e4 e6 e8 e10 i s u.

Definition set_A4 (v : 'M[F]_n.+1) (h : _ExpmPadeHelper) :=
  let: Helper a a2 _ a6 a8 a10 d4 d6 d8 d10 e4 e6 e8 e10 i s u := h in
  Helper a a2 (Some v) a6 a8 a10 d4 d6 d8 d10 e4 e6 e8 e10 i s u.

Definition set_A6 (v : 'M[F]_n.+1) (h : _ExpmPadeHelper) :=
  let: Helper a a2 a4 _ a8 a10 d4 d6 d8 d10 e4 e6 e8 e10 i s u := h in
  Helper a a2 a4 (Some v) a8 a10 d4 d6 d8 d10 e4 e6 e8 e10 i s u.

Definition set_A8 (v : 'M[F]_n.+1) (h : _ExpmPadeHelper) :=
  let: Helper a a2 a4 a6 _ a10 d4 d6 d8 d10 e4 e6 e8 e10 i s u := h in
  Helper a a2 a4 a6 (Some v) a10 d4 d6 d8 d10 e4 e6 e8 e10 i s u.

Definition set_A10 (v : 'M[F]_n.+1) (h : _ExpmPadeHelper) :=
  let: Helper a a2 a4 a6 a8 _ d4 d6 d8 d10 e4 e6 e8 e10 i s u := h in
  Helper a a2 a4 a6 a8 (Some v) d4 d6 d8 d10 e4 e6 e8 e10 i s u.

Definition set_d4_exact (v : F) (h : _ExpmPadeHelper) :=
  let: Helper a a2 a4 a6 a8 a10 _ d6 d8 d10 e4 e6 e8 e10 i s u := h in
  Helper a a2 a4 a6 a8 a10 (Some v) d6 d8 d10 e4 e6 e8 e10 i s u.

Definition set_d6_exact (v : F) (h : _ExpmPadeHelper) :=
  let: Helper a a2 a4 a6 a8 a10 d4 _ d8 d10 e4 e6 e8 e10 i s u := h in
  Helper a a2 a4 a6 a8 a10 d4 (Some v) d8 d10 e4 e6 e8 e10 i s u.

Definition set_d8_exact (v : F) (h : _ExpmPadeHelper) :=
  let: Helper a a2 a4 a6 a8 a10 d4 d6 _ d10 e4 e6 e8 e10 i s u := h in
  Helper a a2 a4 a6 a8 a10 d4 d6 (Some v) d10 e4 e6 e8 e10 i s u.

Definition set_d10_exact (v : F) (h : _ExpmPadeHelper) :=
  let: Helper a a2 a4 a6 a8 a10 d4 d6 d8 _ e4 e6 e8 e10 i s u := h in
  Helper a a2 a4 a6 a8 a10 d4 d6 d8 (Some v) e4 e6 e8 e10 i s u.

(** The monad of the driver: a computation reads and updates the helper,
    appends to the log of calls, and returns a value or raises. *)
Definition state : Type := (_ExpmPadeHelper * seq call)%type.

Definition M (T : Type) : Type := state -> result T * state.

Definition ret (T : Type) (x : T) : M T := fun st => (Ok x, st).

Definition bind (T U : Type) (m : M T) (k : T -> M U) : M U :=
  fun st =>
    let: (r, st') := m st in
    match r with
    | Ok x => k x st'
    | Raise e => (Raise e, st')
    end.

Definition lift (T : Type) (r : result T) : M T := fun st => (r, st).

Definition read (T : Type) (f : _ExpmPadeHelper -> T) : M T :=
  fun st => (Ok (f st.1), st).

Definition write (upd : _ExpmPadeHelper -> _ExpmPadeHelper) : M unit :=
  fun st => (Ok tt, (upd st.1, st.2)).

Definition log (c : call) : M unit :=
  fun st => (Ok tt, (st.1, rcons st.2 c)).

End PadeState.

Arguments ret {F n T} x.
Arguments lift {F n T} r.
Arguments log {F n} c.

Notation "x <~ m ;; k" := (bind m (fun x => k))
  (at level 100, m at next level, right associativity,
   format "'[v' x  <~  m  ;;  '/' k ']'").
Notation "m ;;; k" := (bind m (fun _ => k))
  (at level 100, right associativity,
   format "'[v' m  ;;;  '/' k ']'").

(** ** The helper's properties and the Pade evaluators

    The properties [A2] ... [d10_loose] (lines 54-122) and the methods
    [pade3] ... [pade13_scaled] (lines 124-179).  Attribute reads are
    made in the order Python evaluates them. *)

Section PadeHelper.

Variable F : archiRealFieldType.
Variable fpow : F -> F -> F.
Variable n : nat.

Definition A2 : M F n 'M[F]_n.+1 :=
  c <~ read (@_A2 F n) ;;
  if c is Some v then ret v
  else
    a <~ read (@self_A F n) ;;
    b <~ read (@self_A F n) ;;
    s <~ read (@structure F n) ;;
    let v := _smart_matrix_product a b s in
    write (set_A2 v) ;;; ret v.

Definition A4 : M F n 'M[F]_n.+1 :=
  c <~ read (@_A4 F n) ;;
  if c is Some v then ret v
  else
    a <~ A2 ;;
    b <~ A2 ;;
    s <~ read (@structure F n) ;;
    let v := _smart_matrix_product a b s in
    write (set_A4 v) ;;; ret v.

Definition A6 : M F n 'M[F]_n.+1 :=
  c <~ read (@_A6 F n) ;;
  if c is Some v then ret v
  else
    a <~ A4 ;;
    b <~ A2 ;;
    s <~ read (@structure F n) ;;
    let v := _smart_matrix_product a b s in
    write (set_A6 v) ;;; ret v.

Definition A8 : M F n 'M[F]_n.+1 :=
  c <~ read (@_A8 F n) ;;
  if c is Some v then ret v
  else
    a <~ A6 ;;
    b <~ A2 ;;
    s <~ read (@structure F n) ;;
    let v := _smart_matrix_product a b s in
    write (set_A8 v) ;;; ret v.

Definition A10 : M F n 'M[F]_n.+1 :=
  c <~ read (@_A10 F n) ;;
  if c is Some v then ret v
  else
    a <~ A4 ;;
    b <~ A6 ;;
    s <~ read (@structure F n) ;;
    let v := _smart_matrix_product a b s in
    write (set_A10 v) ;;; ret v.

Definition d4_tight : M F n F :=
  c <~ read (@_d4_exact F n) ;;
  if c is Some v then ret v
  else
    a <~ A4 ;;
    let v := fpow (_onenorm a) (1 / of_pos 4) in
    write (set_d4_exact v) ;;; ret v.

Definition d6_tight : M F n F :=
  c <~ read (@_d6_exact F n) ;;
  if c is Some v then ret v
  else
    a <~ A6 ;;
    let v := fpow (_onenorm a) (1 / of_pos 6) in
    write (set_d6_exact v) ;;; ret v.

Definition d8_tight : M F n F :=
  c <~ read (@_d8_exact F n) ;;
  if c is Some v then ret v
  else
    a <~ A8 ;;
    let v := fpow (_onenorm a) (1 / of_pos 8) in
    write (set_d8_exact v) ;;; ret v.

Definition d10_tight : M F n F :=
  c <~ read (@_d10_exact F n) ;;
  if c is Some v then ret v
  else
    a <~ A10 ;;
    let v := fpow (_onenorm a) (1 / of_pos 10) in
    write (set_d10_exact v) ;;; ret v.

Definition d4_loose : M F n F := d4_tight.
Definition d6_loose : M F n F := d6_tight.
Definition d8_loose : M F n F := d8_tight.
Definition d10_loose : M F n F := d10_tight.

(** The coefficient tuples; [b[i]] is written [b`_i]. *)

Definition b3 : seq F := [:: of_pos 120; of_pos 60; of_pos 12; of_pos 1].

Definition pade3 : M F n ('M[F]_n.+1 * 'M[F]_n.+1) :=
  log call_pade3 ;;;
  let b := b3 in
  a <~ read (@self_A F n) ;;
  a2 <~ A2 ;;
  i <~ read (@ident F n) ;;
  s <~ read (@structure F n) ;;
  let U := _smart_matrix_product a (b`_3 *: a2 + b`_1 *: i) s in
  a2 <~ A2 ;;
  i <~ read (@ident F n) ;;
  let V := b`_2 *: a2 + b`_0 *: i in
  ret (U, V).

Definition b5 : seq F :=
  [:: of_pos 30240; of_pos 15120; of_pos 3360; of_pos 420; of_pos 30;
      of_pos 1].

Definition pade5 : M F n ('M[F]_n.+1 * 'M[F]_n.+1) :=
  log call_pade5 ;;;
  let b := b5 in
  a <~ read (@self_A F n) ;;
  a4 <~ A4 ;;
  a2 <~ A2 ;;
  i <~ read (@ident F n) ;;
  s <~ read (@structure F n) ;;
  let U :=
    _smart_matrix_product a (b`_5 *: a4 + b`_3 *: a2 + b`_1 *: i) s in
  a4 <~ A4 ;;
  a2 <~ A2 ;;
  i <~ read (@ident F n) ;;
  let V := b`_4 *: a4 + b`_2 *: a2 + b`_0 *: i in
  ret (U, V).

Definition b7 : seq F :=
  [:: of_pos 17297280; of_pos 8648640; of_pos 1995840; of_pos 277200;
      of_pos 25200; of_pos 1512; of_pos 56; of_pos 1].

Definition pade7 : M F n ('M[F]_n.+1 * 'M[F]_n.+1) :=
  log call_pade7 ;;;
  let b := b7 in
  a <~ read (@self_A F n) ;;
  a6 <~ A6 ;;
  a4 <~ A4 ;;
  a2 <~ A2 ;;
  i <~ read (@ident F n) ;;
  s <~ read (@structure F n) ;;
  let U :=
    _smart_matrix_product a
      (b`_7 *: a6 + b`_5 *: a4 + b`_3 *: a2 + b`_1 *: i) s in
  a6 <~ A6 ;;
  a4 <~ A4 ;;
  a2 <~ A2 ;;
  i <~ read (@ident F n) ;;
  let V := b`_6 *: a6 + b`_4 *: a4 + b`_2 *: a2 + b`_0 *: i in
  ret (U, V).

Definition b9 : seq F :=
  [:: of_pos 17643225600; of_pos 8821612800; of_pos 2075673600;
      of_pos 302702400; of_pos 30270240; of_pos 2162160; of_pos 110880;
      of_pos 3960; of_pos 90; of_pos 1].

Definition pade9 : M F n ('M[F]_n.+1 * 'M[F]_n.+1) :=
  log call_pade9 ;;;
  let b := b9 in
  a <~ read (@self_A F n) ;;
  a8 <~ A8 ;;
  a6 <~ A6 ;;
  a4 <~ A4 ;;
  a2 <~ A2 ;;
  i <~ read (@ident F n) ;;
  s <~ read (@structure F n) ;;
  let U :=
    _smart_matrix_product a
      (b`_9 *: a8 + b`_7 *: a6 + b`_5 *: a4 + b`_3 *: a2 + b`_1 *: i)
      s in
  a8 <~ A8 ;;
  a6 <~ A6 ;;
  a4 <~ A4 ;;
  a2 <~ A2 ;;
  i <~ read (@ident F n) ;;
  let V :=
    b`_8 *: a8 + b`_6 *: a6 + b`_4 *: a4 + b`_2 *: a2 + b`_0 *: i in
  ret (U, V).

Definition b13 : seq F :=
  [:: of_pos 64764752532480000; of_pos 32382376266240000;
      of_pos 7771770303897600; of_pos 1187353796428800;
      of_pos 129060195264000; of_pos 10559470521600; of_pos 670442572800;
      of_pos 33522128640; of_pos 1323241920; of_pos 40840800;
      of_pos 960960; of_pos 16380; of_pos 182; of_pos 1].

Definition pade13_scaled (s : int) : M F n ('M[F]_n.+1 * 'M[F]_n.+1) :=
  log (call_pade13_scaled s) ;;;
  let b := b13 in
  a <~ read (@self_A F n) ;;
  let B := 2 ^ (- s) *: a in
  a2 <~ A2 ;;
  let B2 := 2 ^ (- 2 * s) *: a2 in
  a4 <~ A4 ;;
  let B4 := 2 ^ (- 4 * s) *: a4 in
  a6 <~ A6 ;;
  let B6 := 2 ^ (- 6 * s) *: a6 in
  st <~ read (@structure F n) ;;
  let U2 :=
    _smart_matrix_product B6 (b`_13 *: B6 + b`_11 *: B4 + b`_9 *: B2)
      st in
  i <~ read (@ident F n) ;;
  st <~ read (@structure F n) ;;
  let U :=
    _smart_matrix_product B
      (U2 + b`_7 *: B6 + b`_5 *: B4 + b`_3 *: B2 + b`_1 *: i) st in
  st <~ read (@structure F n) ;;
  let V2 :=
    _smart_matrix_product B6 (b`_12 *: B6 + b`_10 *: B4 + b`_8 *: B2)
      st in
  i <~ read (@ident F n) ;;
  let V := V2 + b`_6 *: B6 + b`_4 *: B4 + b`_2 *: B2 + b`_0 *: i in
  ret (U, V).

End PadeHelper.

(** ** The driver *)

Section Driver.

Variable F : archiRealFieldType.
Variable log2 : F -> F.
Variable fpow : F -> F -> F.
Variable n : nat.

(** [b and e]: [e] is evaluated only when [b] holds. *)
Definition andM (b : bool) (e : M F n bool) : M F n bool :=
  if b then e else ret false.

(** [for i in range(k): x = body(x)]. *)
Fixpoint for_range (T : Type) (k : nat) (body : T -> M F n T) (x : T) :
    M F n T :=
  if k is k'.+1 then x' <~ body x ;; for_range k' body x' else ret x.

(** [_ell(h.A, m) == 0]. *)
Definition ell_is_zero (m : nat) : M F n bool :=
  a <~ read (@self_A F n) ;;
  l <~ lift (_ell log2 a m) ;;
  ret (l == 0).

(** [return _solve_P_Q(U, V)]. *)
Definition solve_step (UV : 'M[F]_n.+1 * 'M[F]_n.+1) : M F n 'M[F]_n.+1 :=
  log call_solve_P_Q ;;;
  lift (_solve_P_Q UV.1 UV.2 None).

(** The body of [expm] (lines 182-225), run on the helper [h] that its
    first statement creates.  Each early [return] is the [then] branch of
    its test; the rest of the function is the [else] branch. *)
Definition expm_body : M F n 'M[F]_n.+1 :=
  (* Try Pade order 3. *)
  d4 <~ @d4_loose F fpow n ;;
  d6 <~ @d6_loose F fpow n ;;
  let eta_1 := Num.max d4 d6 in
  c <~ andM (eta_1 < sci 1495585217958292 17) (ell_is_zero 3) ;;
  if c then UV <~ @pade3 F n ;; solve_step UV
  else
  (* Try Pade order 5. *)
  d4 <~ @d4_tight F fpow n ;;
  d6 <~ @d6_loose F fpow n ;;
  let eta_2 := Num.max d4 d6 in
  c <~ andM (eta_2 < sci 2539398330063230 16) (ell_is_zero 5) ;;
  if c then UV <~ @pade5 F n ;; solve_step UV
  else
  (* Try Pade orders 7 and 9. *)
  d6 <~ @d6_tight F fpow n ;;
  d8 <~ @d8_loose F fpow n ;;
  let eta_3 := Num.max d6 d8 in
  c <~ andM (eta_3 < sci 9504178996162932 16) (ell_is_zero 7) ;;
  if c then UV <~ @pade7 F n ;; solve_step UV
  else
  c <~ andM (eta_3 < sci 2097847961257068 15) (ell_is_zero 9) ;;
  if c then UV <~ @pade9 F n ;; solve_step UV
  else
  (* Use Pade order 13. *)
  d8 <~ @d8_loose F fpow n ;;
  d10 <~ @d10_loose F fpow n ;;
  let eta_4 := Num.max d8 d10 in
  let eta_5 := Num.min eta_3 eta_4 in
  let theta_13 : F := sci 425 2 in
  s <~ (if eta_5 == 0 then ret 0
        else
          q <~ lift (eta_5 /? theta_13) ;;
          ret (Num.max (Num.ceil (log2 q)) 0)) ;;
  a <~ read (@self_A F n) ;;
  l <~ lift (_ell log2 (2 ^ (- s) *: a) 13) ;;
  let s := s + l in
  UV <~ @pade13_scaled F n s ;;
  X <~ solve_step UV ;;
  for_range (range_len s) (fun X => log call_dot ;;; ret (np_dot X X)) X.

(** [expm(A)]: the result, and the calls made on the way. *)
Definition expm_run (A : 'M[F]_n.+1) : result 'M[F]_n.+1 * state F n :=
  let h := __init__ A true in
  expm_body (h, [::]).

Definition expm (A : 'M[F]_n.+1) : result 'M[F]_n.+1 := (expm_run A).1.

Definition expm_calls (A : 'M[F]_n.+1) : seq call := (expm_run A).2.2.

End Driver.

(** * Definitions used to state the properties

    What follows is not code of the repository: the algorithms and
    quantities in the words of the specification, the invariant of the
    helper's cache, and the description of a run of [expm] that the
    theorems compare the code with. *)

(** [10^e] as a binary numeral. *)
Definition pos_pow10 (e : nat) : positive := iter e (Pos.mul 10) 1%positive.

(** The result is a [ValueError] (the specification's InvalidArgument). *)
Definition raises_ValueError (T : Type) (r : result T) : bool :=
  if r is Raise (ValueError _) then true else false.

Section SpecNormEstimator.

Variable F : archiRealFieldType.
Variable log2 : F -> F.

(** A square matrix of the data model: 2-dimensional, n x n, n >= 1. *)
Definition is_square_matrix (A : ndarray F) : bool :=
  if shape A is [:: r; c] then (r == c) && (0 < r)%N else false.

(** [onenormMatrixPowerNNM(A, p)], the algorithm of the specification:
    start with the column vector of ones, take [M = transpose(A)], apply
    [v := M v] exactly [p] times, return [max(v)]. *)
Definition onenormMatrixPowerNNM (n : nat) (A : 'M[F]_n.+1) (p : nat) : F :=
  let v := const_mx 1 : 'cV[F]_n.+1 in
  let M := A^T in
  np_max (iter p (fun v => M *m v) v).

(** [ell(A, m)] in the words of the specification. *)
Definition ell (n : nat) (A : 'M[F]_n.+1) (m : nat) : int :=
  let c : F := 'C((2 * m)%N, m)%:R * ((2 * m + 1)%N`!)%:R in
  let normAbsPower := onenormMatrixPowerNNM (np_abs A) (2 * m + 1) in
  if normAbsPower == 0 then 0
  else
    let alpha := normAbsPower / (linalg_norm1 A * c) in
    let u : F := 2 ^- 53 in
    Num.max (Num.ceil (log2 (alpha / u) / (2 * m)%N%:R)) 0.

End SpecNormEstimator.

Section SpecHelper.

Variable F : archiRealFieldType.
Variable fpow : F -> F -> F.
Variable n : nat.
Implicit Types (A : 'M[F]_n.+1) (h : _ExpmPadeHelper F n) (cs : seq call).

(** The norm bounds [d_k = onenorm(A^k)^(1/k)]. *)
Definition d4 A : F := fpow (_onenorm (A ^+ 4)) (1 / of_pos 4).
Definition d6 A : F := fpow (_onenorm (A ^+ 6)) (1 / of_pos 6).
Definition d8 A : F := fpow (_onenorm (A ^+ 8)) (1 / of_pos 8).
Definition d10 A : F := fpow (_onenorm (A ^+ 10)) (1 / of_pos 10).

(** A cached attribute is either unset or holds the value it caches. *)
Definition cached (T : Type) (o : option T) (v : T) : Prop :=
  if o is Some x then x = v else True.

(** The invariant of a helper created for [A]. *)
Record cache_ok A h : Prop := CacheOk {
  ok_A : self_A h = A;
  ok_ident : ident h = 1%:M;
  ok_structure : structure h = None;
  ok_A2 : cached (_A2 h) (A ^+ 2);
  ok_A4 : cached (_A4 h) (A ^+ 4);
  ok_A6 : cached (_A6 h) (A ^+ 6);
  ok_A8 : cached (_A8 h) (A ^+ 8);
  ok_A10 : cached (_A10 h) (A ^+ 10);
  ok_d4 : cached (_d4_exact h) (d4 A);
  ok_d6 : cached (_d6_exact h) (d6 A);
  ok_d8 : cached (_d8_exact h) (d8 A);
  ok_d10 : cached (_d10_exact h) (d10 A)
}.

(** [yields A m r cs]: from any state whose cache is consistent with [A],
    the computation [m] ends with [r], appends [cs] to the log and leaves
    the cache consistent. *)
Definition yields A (T : Type) (m : M F n T) (r : result T) cs : Prop :=
  forall h l, cache_ok A h ->
  exists2 h', m (h, l) = (r, (h', l ++ cs)) & cache_ok A h'.

(** The numerator and denominator [(U, V)] of each evaluator, as
    polynomials in the matrix. *)
Definition pade3_UV A : 'M[F]_n.+1 * 'M[F]_n.+1 :=
  (A *m (of_pos 1 *: A ^+ 2 + of_pos 60 *: 1%:M),
   of_pos 12 *: A ^+ 2 + of_pos 120 *: 1%:M).

Definition pade5_UV A : 'M[F]_n.+1 * 'M[F]_n.+1 :=
  (A *m (of_pos 1 *: A ^+ 4 + of_pos 420 *: A ^+ 2 + of_pos 15120 *: 1%:M),
   of_pos 30 *: A ^+ 4 + of_pos 3360 *: A ^+ 2 + of_pos 30240 *: 1%:M).

Definition pade7_UV A : 'M[F]_n.+1 * 'M[F]_n.+1 :=
  (A *m (of_pos 1 *: A ^+ 6 + of_pos 1512 *: A ^+ 4
         + of_pos 277200 *: A ^+ 2 + of_pos 8648640 *: 1%:M),
   of_pos 56 *: A ^+ 6 + of_pos 25200 *: A ^+ 4
   + of_pos 1995840 *: A ^+ 2 + of_pos 17297280 *: 1%:M).

Definition pade9_UV A : 'M[F]_n.+1 * 'M[F]_n.+1 :=
  (A *m (of_pos 1 *: A ^+ 8 + of_pos 3960 *: A ^+ 6
         + of_pos 2162160 *: A ^+ 4 + of_pos 302702400 *: A ^+ 2
         + of_pos 8821612800 *: 1%:M),
   of_pos 90 *: A ^+ 8 + of_pos 110880 *: A ^+ 6
   + of_pos 30270240 *: A ^+ 4 + of_pos 2075673600 *: A ^+ 2
   + of_pos 17643225600 *: 1%:M).

Definition pade13_UV A (s : int) : 'M[F]_n.+1 * 'M[F]_n.+1 :=
  let b := b13 F in
  let B := 2 ^ (- s) *: A in
  let B2 := B ^+ 2 in
  let B4 := B ^+ 4 in
  let B6 := B ^+ 6 in
  (B *m (B6 *m (b`_13 *: B6 + b`_11 *: B4 + b`_9 *: B2)
         + b`_7 *: B6 + b`_5 *: B4 + b`_3 *: B2 + b`_1 *: 1%:M),
   B6 *m (b`_12 *: B6 + b`_10 *: B4 + b`_8 *: B2)
   + b`_6 *: B6 + b`_4 *: B4 + b`_2 *: B2 + b`_0 *: 1%:M).

End SpecHelper.

Section SpecDriver.

Variable F : archiRealFieldType.
Variable log2 : F -> F.
Variable fpow : F -> F -> F.
Variable n : nat.
Implicit Types (A X : 'M[F]_n.+1) (s : int).

(** The guards of the decision sequence, in the words of the
    specification. *)
Definition use3 A : bool :=
  (Num.max (d4 fpow A) (d6 fpow A) < sci 1495585217958292 17)
  && (ell log2 A 3 == 0).

Definition use5 A : bool :=
  (Num.max (d4 fpow A) (d6 fpow A) < sci 2539398330063230 16)
  && (ell log2 A 5 == 0).

Definition use7 A : bool :=
  (Num.max (d6 fpow A) (d8 fpow A) < sci 9504178996162932 16)
  && (ell log2 A 7 == 0).

Definition use9 A : bool :=
  (Num.max (d6 fpow A) (d8 fpow A) < sci 2097847961257068 15)
  && (ell log2 A 9 == 0).

(** The degree chosen by the strictly ordered decision sequence. *)
Definition degree A : nat :=
  if use3 A then 3
  else if use5 A then 5
  else if use7 A then 7
  else if use9 A then 9
  else 13.

(** The scaling exponent of the degree-13 branch. *)
Definition eta5 A : F :=
  Num.min (Num.max (d6 fpow A) (d8 fpow A))
          (Num.max (d8 fpow A) (d10 fpow A)).

Definition scaling0 A : int :=
  if eta5 A == 0 then 0
  else Num.max (Num.ceil (log2 (eta5 A / sci 425 2))) 0.

Definition scaling A : int :=
  scaling0 A + ell log2 (2 ^ (- scaling0 A) *: A) 13.

Definition solve_UV (UV : 'M[F]_n.+1 * 'M[F]_n.+1) : result 'M[F]_n.+1 :=
  _solve_P_Q UV.1 UV.2 None.

(** [X := X . X], [k] times. *)
Definition squared (k : nat) X : 'M[F]_n.+1 := iter k (fun Y => Y *m Y) X.

(** What a run of [expm] returns and which calls it makes. *)
Definition expm_spec A : result 'M[F]_n.+1 * seq call :=
  if use3 A then (solve_UV (pade3_UV A), [:: call_pade3; call_solve_P_Q])
  else if use5 A then (solve_UV (pade5_UV A), [:: call_pade5; call_solve_P_Q])
  else if use7 A then (solve_UV (pade7_UV A), [:: call_pade7; call_solve_P_Q])
  else if use9 A then (solve_UV (pade9_UV A), [:: call_pade9; call_solve_P_Q])
  else
    let s := scaling A in
    let r := solve_UV (pade13_UV A s) in
    (X <-- r ;; Ok (squared (range_len s) X),
     [:: call_pade13_scaled s, call_solve_P_Q
       & if is_ok r then nseq (range_len s) call_dot else [::]]).

End SpecDriver.

(** The degree of the evaluator a call belongs to. *)
Definition degree_of_call (c : call) : option nat :=
  match c with
  | call_pade3 => Some 3%N
  | call_pade5 => Some 5%N
  | call_pade7 => Some 7%N
  | call_pade9 => Some 9%N
  | call_pade13_scaled _ => Some 13%N
  | call_solve_P_Q | call_dot => None
  end.

(** The degrees evaluated in a run, in order. *)
Definition evaluated (cs : seq call) : seq nat := pmap degree_of_call cs.

(** ** A rational instance of the parameters

    The theorems hold for every [log2] and [fpow]; to apply them to
    concrete inputs the parameters are set to rational functions:
    [fpow_rat] is exact at base 0, at base 1 and at exponent 1 and follows
    the tangent of the power at base 1 elsewhere; [log2_rat] is the integer
    part of the binary logarithm. *)

Definition fpow_rat (x y : rat) : rat :=
  if x == 0 then (if y == 0 then 1 else 0) else 1 + (x - 1) * y.

Definition log2_rat (x : rat) : rat :=
  if 1 <= x then (trunc_log 2 (Num.truncn x))%:R
  else if 0 < x then - (trunc_log 2 (Num.truncn x^-1))%:R
  else 0.

(** Concrete inputs: the 1 x 1 matrix [(3)] and the 2 x 2 identity. *)
Definition example_3 : 'M[rat]_1 := (3 : rat)%:M.

Definition example_I : 'M[rat]_2 := 1%:M.

(** ** Further definitions used to state properties *)

(** The result is a [ValueError] with the message [msg]. *)
Definition raises_with (T : Type) (msg : string) (r : result T) : bool :=
  if r is Raise (ValueError m) then String.eqb m msg else false.

(** A shape [(n, n)]: 2-dimensional and square, possibly empty. *)
Definition is_square_shape (sh : seq nat) : bool :=
  if sh is [:: r; c] then r == c else false.

Section SpecNonneg.

Variable F : archiRealFieldType.

(** Every entry of the matrix is non-negative. *)
Definition nonneg_mx (m n : nat) (A : 'M[F]_(m, n)) : bool :=
  [forall i, forall j, 0 <= A i j].

End SpecNonneg.


Section SpecFrames.

Variable F : archiRealFieldType.
Variable fpow : F -> F -> F.
Variable n : nat.

(** A computation keeps the property [P] of the helper. *)
Definition keeps (P : _ExpmPadeHelper F n -> Prop) (T : Type) (m : M F n T) :
    Prop :=
  forall st, P st.1 -> P (m st).2.1.

(** [yields] with an additional invariant [P] of the helper. *)
Definition yields_with (P : _ExpmPadeHelper F n -> Prop) (A : 'M[F]_n.+1)
    (T : Type) (m : M F n T) (r : result T) (cs : seq call) : Prop :=
  forall h l, cache_ok fpow A h -> P h ->
  exists2 h', m (h, l) = (r, (h', l ++ cs)) & cache_ok fpow A h' /\ P h'.

(** The attribute [f] caches nothing yet. *)
Definition unset (T : Type) (f : _ExpmPadeHelper F n -> option T)
    (h : _ExpmPadeHelper F n) : Prop :=
  f h = None.

(** Nothing of order 10 is cached; nothing of order 8 or 10 is cached. *)
Definition no_order10 (h : _ExpmPadeHelper F n) : Prop :=
  unset (@_A10 F n) h /\ unset (@_d10_exact F n) h.

Definition no_order8 (h : _ExpmPadeHelper F n) : Prop :=
  [/\ unset (@_A8 F n) h, unset (@_d8_exact F n) h & no_order10 h].

(** What one access to a memoized property does: it fills the cache, a
    second access is a no-op with the same result, the log is untouched,
    and a filled cache is returned as it is. *)
Definition memoized (T : Type) (f : _ExpmPadeHelper F n -> option T)
    (m : M F n T) (st : state F n) : Prop :=
  [/\ isSome (f (m st).2.1),
      m (m st).2 = m st,
      (m st).2.2 = st.2
    & forall v, f st.1 = Some v -> m st = (Ok v, st)].

End SpecFrames.


Section SpecSelected.

Variable F : archiRealFieldType.
Variable log2 : F -> F.
Variable fpow : F -> F -> F.
Variable n : nat.

(** The [(U, V)] of the evaluator that [expm] selects for [A]. *)
Definition selected_UV (A : 'M[F]_n.+1) : 'M[F]_n.+1 * 'M[F]_n.+1 :=
  if use3 log2 fpow A then pade3_UV A
  else if use5 log2 fpow A then pade5_UV A
  else if use7 log2 fpow A then pade7_UV A
  else if use9 log2 fpow A then pade9_UV A
  else pade13_UV A (scaling log2 fpow A).

End SpecSelected.

Section SpecFrozen.

Variable F : archiRealFieldType.
Variable n : nat.

(** The attributes no property and no evaluator assigns: the flag
    [use_exact_onenorm] still holds [b] and the caches of the estimated
    norms are still unset. *)
Definition frozen (b : bool) (h : _ExpmPadeHelper F n) : Prop :=
  [/\ use_exact_onenorm h = b, _d4_approx h = None, _d6_approx h = None,
      _d8_approx h = None & _d10_approx h = None].

End SpecFrozen.

(** ** A binary logarithm with an exact ceiling

    [clog2_rat x] is the least integer [c] with [x <= 2^c], found by a
    bounded search; [log2c_rat] returns it as a rational. *)

Definition first_nat (p : pred nat) (b : nat) : nat := find p (iota 0 b).

Definition clog2_rat (x : rat) : int :=
  if 1 < x then
    Posz (first_nat (fun k => x <= 2%:R ^+ k) (Num.truncn x).+2)
  else if 0 < x then
    - Posz (first_nat (fun j => 2%:R ^- j.+1 < x) (Num.truncn x^-1).+1)
  else 0.

Definition log2c_rat (x : rat) : rat := (clog2_rat x)%:~R.

(** A matrix with square zero: the 2 x 2 matrix [[0, 1], [0, 0]]. *)
Definition example_N : 'M[rat]_2 := delta_mx ord0 ord_max.

(** * Properties of the embedding *)

(** ** Literals and Python scalars *)

Section Scalars.
Variable F : archiRealFieldType.
Implicit Types (x y : F) (p q : positive).

Lemma of_pos_gt0 p : 0 < of_pos p :> F.
Proof.
elim: p => [p IH|p IH|] /=; rewrite ?ltr01 //.
- by rewrite addr_gt0 // pmulrn_lgt0.
- by rewrite pmulrn_lgt0.
Qed.

Lemma of_posE p : of_pos p = (Pos.to_nat p)%:R :> F.
Proof.
elim: p => [p IH|p IH|] /=; rewrite ?Pos_to_natE ?IH //.
- by rewrite -[in RHS]addn1 natrD -muln2 natrM mulr_natr.
- by rewrite -muln2 natrM mulr_natr.
Qed.

Lemma of_pos_le p q : Pos.leb p q -> of_pos p <= of_pos q :> F.
Proof.
move=> le_pq; rewrite !of_posE ler_nat.
by rewrite -(pos_nat_le (pos_nat_Pos_to_nat p) (pos_nat_Pos_to_nat q)).
Qed.

Lemma of_posM p q : of_pos (Pos.mul p q) = of_pos p * of_pos q :> F.
Proof. by rewrite !of_posE Pos_to_natM natrM. Qed.

Lemma of_pos_pow10 e : of_pos (pos_pow10 e) = 10%:R ^+ e :> F.
Proof.
elim: e => [|e IH] //; rewrite /pos_pow10 iterS -/(pos_pow10 e).
by rewrite of_posM IH exprS; congr (_ * _); rewrite of_posE.
Qed.

Lemma sci_gt0 m e : 0 < sci m e :> F.
Proof. by rewrite /sci divr_gt0 ?of_pos_gt0 // exprn_gt0 // ltr0n. Qed.

Lemma sci_le m e q :
  Pos.leb m (Pos.mul q (pos_pow10 e)) -> sci m e <= of_pos q :> F.
Proof.
move=> le_m; rewrite /sci ler_pdivrMr ?exprn_gt0 ?ltr0n //.
by rewrite -of_pos_pow10 -of_posM of_pos_le.
Qed.

Lemma pyint_nat (k : nat) : pyint (k%:R : F) = Posz k.
Proof. by rewrite /pyint ler0n pmulrn intrKfloor. Qed.

Lemma pyint_check x :
  ((pyint x)%:~R != x) || (x < 0) = (x \isn't a Num.nat).
Proof.
rewrite natrEint negb_and -ltNge /pyint.
by case: ifP => _; [rewrite intrEfloor | rewrite intrEceil].
Qed.

End Scalars.

(** ** Input validation of [_onenorm_matrix_power_nnm] *)

Section NdArray.
Variable F : archiRealFieldType.

Lemma of_mxK (m n : nat) : cancel (@of_mx F m n) (to_mx m n).
Proof. by move=> A; apply/matrixP=> i j; rewrite mxE /= !valK. Qed.

Lemma onenorm_matrix_power_nnm_raisesE (A : ndarray F) (p : F) :
  raises_ValueError (_onenorm_matrix_power_nnm A p)
  = (p \isn't a Num.nat) || ~~ is_square_matrix A.
Proof.
rewrite /_onenorm_matrix_power_nnm pyint_check /is_square_matrix.
case: (p \is a Num.nat) => //=.
case: (shape A) => [|r [|c [|k sh]]] //=.
by case: eqP => [->|] //=; case: c.
Qed.

Lemma onenorm_matrix_power_nnm_okE (A : ndarray F) (p : F) :
  is_ok (_onenorm_matrix_power_nnm A p)
  = (p \is a Num.nat) && is_square_matrix A.
Proof.
rewrite /_onenorm_matrix_power_nnm pyint_check /is_square_matrix.
case: (p \is a Num.nat) => //=.
case: (shape A) => [|r [|c [|k sh]]] //=.
by case: eqP => [->|] //=; case: c.
Qed.

Lemma onenorm_matrix_power_nnmE (n : nat) (A : 'M[F]_n.+1) (p : nat) :
  _onenorm_matrix_power_nnm (of_mx A) p%:R = Ok (onenormMatrixPowerNNM A p).
Proof.
rewrite /_onenorm_matrix_power_nnm pyint_check natr_nat /= eqxx /=.
by rewrite of_mxK pyint_nat.
Qed.

End NdArray.

(** ** The one-norm and the power iteration on the zero matrix *)

Section Norms.
Variable F : archiRealFieldType.

Lemma colsum_ge0 (m n : nat) (A : 'M[F]_(m, n)) j : 0 <= colsum A j.
Proof. by rewrite /colsum sumr_ge0. Qed.

Lemma colsum_le_norm1 (m n : nat) (A : 'M[F]_(m, n.+1)) j :
  colsum A j <= linalg_norm1 A.
Proof. exact: le_bigmax. Qed.

Lemma linalg_norm1_ge0 (m n : nat) (A : 'M[F]_(m, n.+1)) :
  0 <= linalg_norm1 A.
Proof. exact: le_trans (colsum_ge0 A ord0) (colsum_le_norm1 A ord0). Qed.

Lemma entry_le_norm1 (m n : nat) (A : 'M[F]_(m, n.+1)) i j :
  `|A i j| <= linalg_norm1 A.
Proof.
apply: le_trans (colsum_le_norm1 A j).
by rewrite /colsum (bigD1 i) //= lerDl sumr_ge0.
Qed.

Lemma linalg_norm1_eq0 (m n : nat) (A : 'M[F]_(m, n.+1)) :
  (linalg_norm1 A == 0) = (A == 0).
Proof.
apply/eqP/eqP => [A0|->].
  apply/matrixP=> i j; rewrite mxE; apply/eqP; rewrite -normr_le0.
  by rewrite -A0 entry_le_norm1.
have colsum0 j : colsum (0 : 'M[F]_(m, n.+1)) j = 0.
  by rewrite /colsum big1 // => i _; rewrite mxE normr0.
by rewrite /linalg_norm1 bigmax_eq_id ?colsum0 // => j _; rewrite !colsum0.
Qed.

Lemma np_abs0 (m n : nat) : np_abs (0 : 'M[F]_(m, n)) = 0.
Proof. by apply/matrixP=> i j; rewrite !mxE normr0. Qed.

Lemma np_max0 (n : nat) : np_max (0 : 'cV[F]_n.+1) = 0.
Proof.
by rewrite /np_max mxE bigmax_eq_id // => i _; rewrite mxE.
Qed.

Lemma onenormMatrixPowerNNM0 (n p : nat) :
  onenormMatrixPowerNNM (0 : 'M[F]_n.+1) p.+1 = 0.
Proof. by rewrite /onenormMatrixPowerNNM /= trmx0 mul0mx np_max0. Qed.

Lemma np_max_ones (n : nat) : np_max (const_mx 1 : 'cV[F]_n.+1) = 1.
Proof. by rewrite /np_max mxE bigmax_eq_id // => i _; rewrite mxE. Qed.

Lemma onenormMatrixPowerNNM1 (n p : nat) :
  onenormMatrixPowerNNM (1%:M : 'M[F]_n.+1) p = 1.
Proof.
rewrite /onenormMatrixPowerNNM /= trmx1.
by elim: p => [|p IH] /=; rewrite ?mul1mx // np_max_ones.
Qed.

End Norms.

(** ** [_ell]: the guard of its divisions and its value *)

Section Ell.
Variable F : archiRealFieldType.
Variable log2 : F -> F.
Variable n : nat.
Implicit Types (A : 'M[F]_n.+1) (m : nat).

Lemma abs_c_recip_gt0 m :
  0 < 'C((2 * m)%N, m)%:R * ((2 * m + 1)%N`!)%:R :> F.
Proof.
by rewrite mulr_gt0 // ltr0n ?fact_gt0 // bin_gt0 mul2n -addnn leq_addr.
Qed.

Lemma onenorm0_power A m :
  _onenorm A = 0 ->
  np_abs A = 0 /\ onenormMatrixPowerNNM (np_abs A) (2 * m + 1) = 0.
Proof.
move/eqP; rewrite /_onenorm linalg_norm1_eq0 => /eqP ->.
by rewrite np_abs0 addn1 onenormMatrixPowerNNM0.
Qed.

Lemma power_neq0_onenorm A m :
  onenormMatrixPowerNNM (np_abs A) (2 * m + 1) != 0 -> 0 < _onenorm A.
Proof.
move=> nz; rewrite lt_neqAle linalg_norm1_ge0 andbT eq_sym.
by apply: contraNneq nz => /(@onenorm0_power _ m) [_ ->].
Qed.

Lemma ell_ge0 A m : 0 <= ell log2 A m.
Proof. by rewrite /ell; case: ifP => // _; rewrite le_max lexx orbT. Qed.

Lemma unit_roundoff_neq0 : 2 ^- 53 != 0 :> F.
Proof. by rewrite invr_eq0 expf_neq0 // pnatr_eq0. Qed.

Lemma _ellE A m : (0 < m)%N -> _ell log2 A m = Ok (ell log2 A m).
Proof.
move=> m_gt0; rewrite /_ell /ell onenorm_matrix_power_nnmE /=.
case: ifPn => // nz.
have den_gt0 := mulr_gt0 (power_neq0_onenorm nz) (abs_c_recip_gt0 m).
rewrite /pydiv gt_eqF // /rbind (negbTE unit_roundoff_neq0).
by rewrite pnatr_eq0 muln_eq0 /= eqn0Ngt m_gt0.
Qed.

End Ell.

(** ** Rules for runs in the monad [M] *)

Section Runs.
Variable F : archiRealFieldType.
Variable fpow : F -> F -> F.
Variable n : nat.
Implicit Types (A : 'M[F]_n.+1) (h : _ExpmPadeHelper F n) (l cs : seq call).

Lemma cache_ok_init A b : cache_ok fpow A (__init__ A b).
Proof. by split. Qed.

Lemma yields_ret A (T : Type) (x y : T) :
  x = y -> yields fpow A (ret x) (Ok y) [::].
Proof. by move=> -> h l ok_h; exists h; rewrite ?cats0. Qed.

Lemma yields_lift A (T : Type) (r : result T) : yields fpow A (lift r) r [::].
Proof. by move=> h l ok_h; exists h; rewrite ?cats0. Qed.

Lemma yields_bind A (T U : Type) (m : M F n T) (k : T -> M F n U) x cs1 r cs2 :
  yields fpow A m (Ok x) cs1 -> yields fpow A (k x) r cs2 ->
  yields fpow A (bind m k) r (cs1 ++ cs2).
Proof.
move=> ym yk h l ok_h; rewrite /bind.
have [h1 -> ok_h1] := ym h l ok_h.
by have [h2 -> ok_h2] := yk h1 (l ++ cs1) ok_h1; exists h2; rewrite ?catA.
Qed.

Lemma yields_bind0 A (T U : Type) (m : M F n T) (k : T -> M F n U) x r cs :
  yields fpow A m (Ok x) [::] -> yields fpow A (k x) r cs -> yields fpow A (bind m k) r cs.
Proof. exact: yields_bind. Qed.

Lemma yields_raise A (T U : Type) (m : M F n T) (k : T -> M F n U) e cs :
  yields fpow A m (Raise e) cs -> yields fpow A (bind m k) (Raise e) cs.
Proof.
by move=> ym h l ok_h; rewrite /bind; have [h1 -> ok_h1] := ym h l ok_h; exists h1.
Qed.

Lemma yields_log A (U : Type) c (k : unit -> M F n U) r cs :
  yields fpow A (k tt) r cs -> yields fpow A (bind (log c) k) r (c :: cs).
Proof.
move=> yk h l ok_h; rewrite /bind /log /=.
by have [h1 -> ok_h1] := yk h (rcons l c) ok_h; exists h1; rewrite // -cats1 -catA.
Qed.

Lemma yields_read A (T U : Type) (f : _ExpmPadeHelper F n -> T) v
    (k : T -> M F n U) r cs :
  (forall h, cache_ok fpow A h -> f h = v) ->
  yields fpow A (k v) r cs -> yields fpow A (bind (read f) k) r cs.
Proof.
by move=> fv yk h l ok_h; rewrite /bind /read /= (fv h ok_h); apply: yk.
Qed.

Lemma yields_cache A (T U : Type) (f : _ExpmPadeHelper F n -> option T) v
    (k : option T -> M F n U) r cs :
  (forall h, cache_ok fpow A h -> cached (f h) v) ->
  (forall o, cached o v -> yields fpow A (k o) r cs) ->
  yields fpow A (bind (read f) k) r cs.
Proof.
by move=> fv yk h l ok_h; rewrite /bind /read /=; apply: yk (fv h ok_h) _ _ ok_h.
Qed.

Lemma yields_write A (U : Type) (upd : _ExpmPadeHelper F n -> _ExpmPadeHelper F n)
    (k : unit -> M F n U) r cs :
  (forall h, cache_ok fpow A h -> cache_ok fpow A (upd h)) ->
  yields fpow A (k tt) r cs -> yields fpow A (bind (write upd) k) r cs.
Proof.
by move=> ok_upd yk h l ok_h; rewrite /bind /write /=; apply/yk/ok_upd.
Qed.

Lemma cache_ok_set_A2 A v h :
  v = A ^+ 2 -> cache_ok fpow A h -> cache_ok fpow A (set_A2 v h).
Proof. by move=> -> []; case: h => /= *; split. Qed.

Lemma cache_ok_set_A4 A v h :
  v = A ^+ 4 -> cache_ok fpow A h -> cache_ok fpow A (set_A4 v h).
Proof. by move=> -> []; case: h => /= *; split. Qed.

Lemma cache_ok_set_A6 A v h :
  v = A ^+ 6 -> cache_ok fpow A h -> cache_ok fpow A (set_A6 v h).
Proof. by move=> -> []; case: h => /= *; split. Qed.

Lemma cache_ok_set_A8 A v h :
  v = A ^+ 8 -> cache_ok fpow A h -> cache_ok fpow A (set_A8 v h).
Proof. by move=> -> []; case: h => /= *; split. Qed.

Lemma cache_ok_set_A10 A v h :
  v = A ^+ 10 -> cache_ok fpow A h -> cache_ok fpow A (set_A10 v h).
Proof. by move=> -> []; case: h => /= *; split. Qed.

Lemma cache_ok_set_d4_exact A v h :
  v = d4 fpow A -> cache_ok fpow A h -> cache_ok fpow A (set_d4_exact v h).
Proof. by move=> -> []; case: h => /= *; split. Qed.

Lemma cache_ok_set_d6_exact A v h :
  v = d6 fpow A -> cache_ok fpow A h -> cache_ok fpow A (set_d6_exact v h).
Proof. by move=> -> []; case: h => /= *; split. Qed.

Lemma cache_ok_set_d8_exact A v h :
  v = d8 fpow A -> cache_ok fpow A h -> cache_ok fpow A (set_d8_exact v h).
Proof. by move=> -> []; case: h => /= *; split. Qed.

Lemma cache_ok_set_d10_exact A v h :
  v = d10 fpow A -> cache_ok fpow A h -> cache_ok fpow A (set_d10_exact v h).
Proof. by move=> -> []; case: h => /= *; split. Qed.

Lemma smart_productE A (i j : nat) s :
  _smart_matrix_product (A ^+ i) (A ^+ j) s = A ^+ (i + j).
Proof. by rewrite /_smart_matrix_product /np_dot exprD. Qed.

End Runs.

(** Tactics that run one statement of a computation. *)

Ltac yread :=
  first [ eapply yields_read; [exact: ok_A|]
        | eapply yields_read; [exact: ok_ident|]
        | eapply yields_read; [exact: ok_structure|] ].

Ltac ycached ok_f :=
  apply: (yields_cache ok_f) => -[? ->|_]; first exact: yields_ret.

Ltac ystep L := apply: (yields_bind0 L).

Ltac ylift := eapply yields_bind0; [exact: yields_lift|].

(** ** Runs of the helper's properties and of the evaluators *)

Section Evaluators.
Variable F : archiRealFieldType.
Variable fpow : F -> F -> F.
Variable n : nat.
Implicit Types (A : 'M[F]_n.+1) (h : _ExpmPadeHelper F n) (l cs : seq call).

Lemma A2_yields A : yields fpow A (@A2 F n) (Ok (A ^+ 2)) [::].
Proof.
rewrite /A2; ycached (@ok_A2 _ fpow _ A).
do 3!yread.
have vE : _smart_matrix_product A A None = A ^+ 2.
  by rewrite -[A in LHS]expr1 smart_productE.
apply: yields_write => [h|]; first exact: cache_ok_set_A2.
exact: yields_ret.
Qed.

Lemma A4_yields A : yields fpow A (@A4 F n) (Ok (A ^+ 4)) [::].
Proof.
rewrite /A4; ycached (@ok_A4 _ fpow _ A).
ystep (@A2_yields A); ystep (@A2_yields A); yread.
have vE := smart_productE A 2 2 None.
apply: yields_write => [h|]; first exact: cache_ok_set_A4.
exact: yields_ret.
Qed.

Lemma A6_yields A : yields fpow A (@A6 F n) (Ok (A ^+ 6)) [::].
Proof.
rewrite /A6; ycached (@ok_A6 _ fpow _ A).
ystep (@A4_yields A); ystep (@A2_yields A); yread.
have vE := smart_productE A 4 2 None.
apply: yields_write => [h|]; first exact: cache_ok_set_A6.
exact: yields_ret.
Qed.

Lemma A8_yields A : yields fpow A (@A8 F n) (Ok (A ^+ 8)) [::].
Proof.
rewrite /A8; ycached (@ok_A8 _ fpow _ A).
ystep (@A6_yields A); ystep (@A2_yields A); yread.
have vE := smart_productE A 6 2 None.
apply: yields_write => [h|]; first exact: cache_ok_set_A8.
exact: yields_ret.
Qed.

Lemma A10_yields A : yields fpow A (@A10 F n) (Ok (A ^+ 10)) [::].
Proof.
rewrite /A10; ycached (@ok_A10 _ fpow _ A).
ystep (@A4_yields A); ystep (@A6_yields A); yread.
have vE := smart_productE A 4 6 None.
apply: yields_write => [h|]; first exact: cache_ok_set_A10.
exact: yields_ret.
Qed.

Lemma d4_tight_yields A : yields fpow A (@d4_tight F fpow n) (Ok (d4 fpow A)) [::].
Proof.
rewrite /d4_tight; ycached (@ok_d4 _ fpow _ A).
ystep (@A4_yields A).
apply: yields_write => [h|]; first exact: cache_ok_set_d4_exact.
exact: yields_ret.
Qed.

Lemma d6_tight_yields A : yields fpow A (@d6_tight F fpow n) (Ok (d6 fpow A)) [::].
Proof.
rewrite /d6_tight; ycached (@ok_d6 _ fpow _ A).
ystep (@A6_yields A).
apply: yields_write => [h|]; first exact: cache_ok_set_d6_exact.
exact: yields_ret.
Qed.

Lemma d8_tight_yields A : yields fpow A (@d8_tight F fpow n) (Ok (d8 fpow A)) [::].
Proof.
rewrite /d8_tight; ycached (@ok_d8 _ fpow _ A).
ystep (@A8_yields A).
apply: yields_write => [h|]; first exact: cache_ok_set_d8_exact.
exact: yields_ret.
Qed.

Lemma d10_tight_yields A : yields fpow A (@d10_tight F fpow n) (Ok (d10 fpow A)) [::].
Proof.
rewrite /d10_tight; ycached (@ok_d10 _ fpow _ A).
ystep (@A10_yields A).
apply: yields_write => [h|]; first exact: cache_ok_set_d10_exact.
exact: yields_ret.
Qed.

Lemma pade3_yields A : yields fpow A (@pade3 F n) (Ok (pade3_UV A)) [:: call_pade3].
Proof.
rewrite /pade3; apply: yields_log.
yread; ystep (@A2_yields A); do 2!yread.
ystep (@A2_yields A); yread.
exact: yields_ret.
Qed.

Lemma pade5_yields A : yields fpow A (@pade5 F n) (Ok (pade5_UV A)) [:: call_pade5].
Proof.
rewrite /pade5; apply: yields_log.
yread; ystep (@A4_yields A); ystep (@A2_yields A); do 2!yread.
ystep (@A4_yields A); ystep (@A2_yields A); yread.
exact: yields_ret.
Qed.

Lemma pade7_yields A : yields fpow A (@pade7 F n) (Ok (pade7_UV A)) [:: call_pade7].
Proof.
rewrite /pade7; apply: yields_log.
yread; ystep (@A6_yields A); ystep (@A4_yields A); ystep (@A2_yields A).
do 2!yread.
ystep (@A6_yields A); ystep (@A4_yields A); ystep (@A2_yields A); yread.
exact: yields_ret.
Qed.

Lemma pade9_yields A : yields fpow A (@pade9 F n) (Ok (pade9_UV A)) [:: call_pade9].
Proof.
rewrite /pade9; apply: yields_log.
yread; ystep (@A8_yields A); ystep (@A6_yields A); ystep (@A4_yields A).
ystep (@A2_yields A); do 2!yread.
ystep (@A8_yields A); ystep (@A6_yields A); ystep (@A4_yields A).
ystep (@A2_yields A); yread.
exact: yields_ret.
Qed.

Lemma scaled_powerE A (s : int) (k : nat) :
  2 ^ (- k%:Z * s) *: A ^+ k = (2 ^ (- s) *: A) ^+ k.
Proof.
rewrite exprZn; congr (_ *: _).
by rewrite [RHS]exprnP exprz_exp mulNr mulrC mulNr.
Qed.

Lemma pade13_scaled_yields A s :
  yields fpow A (@pade13_scaled F n s) (Ok (pade13_UV A s))
    [:: call_pade13_scaled s].
Proof.
rewrite /pade13_scaled; apply: yields_log.
yread; ystep (@A2_yields A); ystep (@A4_yields A); ystep (@A6_yields A).
do 5!yread.
apply: yields_ret; rewrite /pade13_UV.
by rewrite -!scaled_powerE.
Qed.

End Evaluators.

(** ** A run of the driver *)

Section DriverRuns.
Variable F : archiRealFieldType.
Variable log2 : F -> F.
Variable fpow : F -> F -> F.
Variable n : nat.
Implicit Types (A X : 'M[F]_n.+1) (s : int).

Lemma ell_is_zero_yields A m b :
  (0 < m)%N ->
  yields fpow A (andM b (@ell_is_zero F log2 n m)) (Ok (b && (ell log2 A m == 0))) [::].
Proof.
move=> m_gt0; case: b => /=; last exact: yields_ret.
rewrite /ell_is_zero; yread.
rewrite _ellE //; ylift.
exact: yields_ret.
Qed.

Lemma solve_step_yields A UV :
  yields fpow A (@solve_step F n UV) (solve_UV UV) [:: call_solve_P_Q].
Proof. by rewrite /solve_step; apply: yields_log; apply: yields_lift. Qed.

Lemma for_range_yields A k X :
  yields fpow A
    (for_range k (fun X => log call_dot ;;; ret (np_dot X X)) X)
    (Ok (squared k X)) (nseq k call_dot).
Proof.
elim: k X => [|k IH] X; first exact: yields_ret.
rewrite /squared iterSr -/(squared k _) /=.
apply: (@yields_bind _ _ _ _ _ _ _ _ _ [:: call_dot]); last exact: IH.
by apply: yields_log; apply: yields_ret.
Qed.

Lemma theta13_neq0 : sci 425 2 != 0 :> F.
Proof. by rewrite gt_eqF // sci_gt0. Qed.

Lemma expm_body_yields A :
  yields fpow A (@expm_body F log2 fpow n) (expm_spec log2 fpow A).1 (expm_spec log2 fpow A).2.
Proof.
rewrite /expm_body /expm_spec /d4_loose /d6_loose /d8_loose /d10_loose.
ystep (@d4_tight_yields _ fpow _ A); ystep (@d6_tight_yields _ fpow _ A).
eapply yields_bind0; first exact: ell_is_zero_yields.
 rewrite -/(use3 log2 fpow A).
case: ifP => _ /=.
  by apply: (yields_bind (@pade3_yields _ fpow _ A)); apply: solve_step_yields.
ystep (@d4_tight_yields _ fpow _ A); ystep (@d6_tight_yields _ fpow _ A).
eapply yields_bind0; first exact: ell_is_zero_yields.
 rewrite -/(use5 log2 fpow A).
case: ifP => _ /=.
  by apply: (yields_bind (@pade5_yields _ fpow _ A)); apply: solve_step_yields.
ystep (@d6_tight_yields _ fpow _ A); ystep (@d8_tight_yields _ fpow _ A).
eapply yields_bind0; first exact: ell_is_zero_yields.
 rewrite -/(use7 log2 fpow A).
case: ifP => _ /=.
  by apply: (yields_bind (@pade7_yields _ fpow _ A)); apply: solve_step_yields.
eapply yields_bind0; first exact: ell_is_zero_yields.
 rewrite -/(use9 log2 fpow A).
case: ifP => _ /=.
  by apply: (yields_bind (@pade9_yields _ fpow _ A)); apply: solve_step_yields.
ystep (@d8_tight_yields _ fpow _ A); ystep (@d10_tight_yields _ fpow _ A).
rewrite -/(eta5 fpow A).
have s0_yields :
  yields fpow A
    (if eta5 fpow A == 0 then ret 0
     else q <~ lift (eta5 fpow A /? sci 425 2) ;;
          ret (Num.max (Num.ceil (log2 q)) 0))
    (Ok (scaling0 log2 fpow A)) [::].
  rewrite /scaling0; case: ifP => _; first exact: yields_ret.
  rewrite /pydiv (negbTE theta13_neq0).
  by ylift; apply: yields_ret.
apply: (yields_bind0 s0_yields); yread.
rewrite _ellE //; ylift.
rewrite -/(scaling log2 fpow A).
apply: (yields_bind (@pade13_scaled_yields _ fpow _ A _)).
have := @solve_step_yields A (pade13_UV A (scaling log2 fpow A)).
case: (solve_UV _) => [X|e] ysolve /=; last exact: yields_raise.
by apply: (yields_bind ysolve); apply: for_range_yields.
Qed.

Lemma expm_runE A :
  (expm log2 fpow A, expm_calls log2 fpow A) = expm_spec log2 fpow A.
Proof.
rewrite /expm /expm_calls /expm_run.
have [h' -> _] := expm_body_yields [::] (cache_ok_init fpow A true).
by case: (expm_spec log2 fpow A).
Qed.

End DriverRuns.

(** ** Consequences for the log and the scaling exponent *)

Section DriverFacts.
Variable F : archiRealFieldType.
Variable log2 : F -> F.
Variable fpow : F -> F -> F.
Variable n : nat.
Implicit Types (A X : 'M[F]_n.+1) (s : int).

Lemma evaluated_dots k : evaluated (nseq k call_dot) = [::].
Proof. by elim: k. Qed.

Lemma evaluated_spec A : evaluated (expm_spec log2 fpow A).2 = [:: degree log2 fpow A].
Proof.
rewrite /expm_spec /degree; do 4![case: ifP => _ //].
by rewrite /evaluated /=; case: ifP => _ //; rewrite -/(evaluated _) evaluated_dots.
Qed.

Lemma range_len_ge0 s : 0 <= s -> (range_len s)%:Z = s.
Proof. by case: s. Qed.

Lemma scaling0_ge0 A : 0 <= scaling0 log2 fpow A.
Proof. by rewrite /scaling0; case: ifP => // _; rewrite le_max lexx orbT. Qed.

Lemma scaling_ge0 A : 0 <= scaling log2 fpow A.
Proof. by rewrite /scaling addr_ge0 ?scaling0_ge0 ?ell_ge0. Qed.

Lemma squaredE k X : squared k X = X ^+ (2 ^ k).
Proof.
elim: k => [|k IH]; first by rewrite /squared /= expn0 expr1.
by rewrite /squared iterS -/(squared k X) IH mulmxE -expr2 -exprM expnSr.
Qed.

End DriverFacts.

(** ** The linear solve *)

Section SolveFacts.
Variable F : archiRealFieldType.
Variable n : nat.
Implicit Types (U V X : 'M[F]_n).

Lemma linalg_solveP (Q P : 'M[F]_n) :
  if \det Q == 0 then linalg_solve Q P = Raise (LinAlgError "Singular matrix")
  else exists2 X, linalg_solve Q P = Ok X
                  & Q *m X = P /\ (forall Y, Q *m Y = P -> Y = X).
Proof.
rewrite /linalg_solve unitmxE unitfE; case detQ: (\det Q == 0) => //=.
have Qu : Q \in unitmx by rewrite unitmxE unitfE detQ.
exists (invmx Q *m P) => //; split; first by rewrite mulKVmx.
by move=> Y <-; rewrite mulKmx.
Qed.

End SolveFacts.

(** ** The zero matrix *)

Section ZeroMatrix.
Variable F : archiRealFieldType.
Variable log2 : F -> F.
Variable fpow : F -> F -> F.
Variable n : nat.
Hypothesis fpow0 : forall y : F, 0 < y -> fpow 0 y = 0.

Lemma onenorm0 : _onenorm (0 : 'M[F]_n.+1) = 0.
Proof. by apply/eqP; rewrite /_onenorm linalg_norm1_eq0. Qed.

Lemma d4_zero : d4 fpow (0 : 'M[F]_n.+1) = 0.
Proof. by rewrite /d4 expr0n onenorm0 fpow0 // divr_gt0 ?of_pos_gt0. Qed.

Lemma d6_zero : d6 fpow (0 : 'M[F]_n.+1) = 0.
Proof. by rewrite /d6 expr0n onenorm0 fpow0 // divr_gt0 ?of_pos_gt0. Qed.

Lemma ell_zero m : ell log2 (0 : 'M[F]_n.+1) m = 0.
Proof. by rewrite /ell np_abs0 addn1 onenormMatrixPowerNNM0 eqxx. Qed.

Lemma use3_zero : use3 log2 fpow (0 : 'M[F]_n.+1).
Proof. by rewrite /use3 d4_zero d6_zero maxxx sci_gt0 ell_zero. Qed.

Lemma pade3_UV_zero : pade3_UV (0 : 'M[F]_n.+1) = (0, of_pos 120 *: 1%:M).
Proof. by rewrite /pade3_UV mul0mx expr0n scaler0 add0r. Qed.

Lemma solve_pade3_zero : solve_UV (pade3_UV (0 : 'M[F]_n.+1)) = Ok 1%:M.
Proof.
rewrite pade3_UV_zero /solve_UV /_solve_P_Q /= oppr0 !add0r /linalg_solve.
have Vu : of_pos 120 *: 1%:M \in @unitmx F n.+1.
  by rewrite unitmxZ ?unitmx1 // unitfE gt_eqF // of_pos_gt0.
by rewrite Vu mulVmx.
Qed.

End ZeroMatrix.

(** ** 1 x 1 matrices *)

Section OneByOne.
Variable F : archiRealFieldType.
Implicit Types (a : F).

Lemma linalg_norm1_scalar a : linalg_norm1 (a%:M : 'M[F]_1) = `|a|.
Proof.
rewrite /linalg_norm1 big_ord_recl big_ord0 maxxx.
by rewrite /colsum big_ord_recl big_ord0 addr0 mxE eqxx mulr1n.
Qed.

Lemma onenorm_scalar_exp a k : _onenorm ((a%:M : 'M[F]_1) ^+ k) = `|a| ^+ k.
Proof. by rewrite -rmorphXn /= /_onenorm linalg_norm1_scalar normrX. Qed.

End OneByOne.

(** ** An input that reaches the degree-13 branch *)

Section Degree13.
Variable F : archiRealFieldType.
Variable log2 : F -> F.
Variable fpow : F -> F -> F.
Variable n : nat.

Lemma guard_false (x theta : F) (b : bool) :
  theta <= x -> (x < theta) && b = false.
Proof. by move=> le_x; rewrite ltNge le_x. Qed.

Lemma degree13_of_large (A : 'M[F]_n.+1) :
  of_pos 3 <= d4 fpow A -> of_pos 3 <= d6 fpow A ->
  degree log2 fpow A = 13%N.
Proof.
move=> d4_ge d6_ge; rewrite /degree /use3 /use5 /use7 /use9.
have t3 : sci 1495585217958292 17 <= of_pos 3 :> F.
  by apply: sci_le; vm_compute.
have t5 : sci 2539398330063230 16 <= of_pos 3 :> F.
  by apply: sci_le; vm_compute.
have t7 : sci 9504178996162932 16 <= of_pos 3 :> F.
  by apply: sci_le; vm_compute.
have t9 : sci 2097847961257068 15 <= of_pos 3 :> F.
  by apply: sci_le; vm_compute.
have le_eta1 theta :
    theta <= of_pos 3 -> theta <= Num.max (d4 fpow A) (d6 fpow A).
  by move=> le3; rewrite le_max (le_trans le3 d4_ge).
have le_eta3 theta :
    theta <= of_pos 3 -> theta <= Num.max (d6 fpow A) (d8 fpow A).
  by move=> le3; rewrite le_max (le_trans le3 d6_ge).
by rewrite !guard_false ?le_eta1 ?le_eta3.
Qed.

End Degree13.

Lemma fpow_rat0 (y : rat) : 0 < y -> fpow_rat 0 y = 0.
Proof. by move=> y_gt0; rewrite /fpow_rat eqxx gt_eqF. Qed.

Lemma degree13_example : degree log2_rat fpow_rat example_3 = 13%N.
Proof.
rewrite /example_3.
by apply: degree13_of_large; rewrite ?/d4 ?/d6 onenorm_scalar_exp; vm_compute.
Qed.

(** ** Two runs on concrete inputs *)

Example onenorm_matrix_power_nnm_identity :
  _onenorm_matrix_power_nnm (of_mx example_I) 5%:R = Ok 1.
Proof. by rewrite onenorm_matrix_power_nnmE onenormMatrixPowerNNM1. Qed.

Example expm_calls_example_3 :
  evaluated (expm_calls log2_rat fpow_rat example_3) = [:: 13%N].
Proof.
have [_ ->] : expm log2_rat fpow_rat example_3
              = (expm_spec log2_rat fpow_rat example_3).1
              /\ expm_calls log2_rat fpow_rat example_3
                 = (expm_spec log2_rat fpow_rat example_3).2.
  by rewrite -expm_runE.
by rewrite evaluated_spec degree13_example.
Qed.

(** * The claims of the specification *)

Section Claims.
Variable F : archiRealFieldType.
Variable log2 : F -> F.
Variable fpow : F -> F -> F.
Variable n : nat.
Implicit Types (A X U V : 'M[F]_n.+1) (s : int) (m p : nat).

(** C1.  [expm] selects the Pade degree by the ordered decision sequence
    of the specification: a run evaluates exactly one Pade evaluator, the
    one of [degree A], and that is degree 3 iff [max(d4, d6) <
    1.495585217958292e-2] and [ell(A, 3) == 0]; otherwise 5 iff
    [max(d4, d6) < 2.539398330063230e-1] and [ell(A, 5) == 0]; otherwise 7
    iff [max(d6, d8) < 9.504178996162932e-1] and [ell(A, 7) == 0];
    otherwise 9 iff [max(d6, d8) < 2.097847961257068] and [ell(A, 9) == 0];
    otherwise 13.  The [ell] of these guards is what [_ell] returns.  For a
    degree in 3, 5, 7, 9 the result is the linear solve of the [(U, V)] the
    evaluator builds on the unscaled matrix. *)
Theorem expm_degree_selection A :
  let eta1 := Num.max (d4 fpow A) (d6 fpow A) in
  let eta3 := Num.max (d6 fpow A) (d8 fpow A) in
  let c3 := (eta1 < sci 1495585217958292 17) && (ell log2 A 3 == 0) in
  let c5 := (eta1 < sci 2539398330063230 16) && (ell log2 A 5 == 0) in
  let c7 := (eta3 < sci 9504178996162932 16) && (ell log2 A 7 == 0) in
  let c9 := (eta3 < sci 2097847961257068 15) && (ell log2 A 9 == 0) in
  let deg := degree log2 fpow A in
  let run := evaluated (expm_calls log2 fpow A) in
  (run = [:: deg])
  /\ [/\ _ell log2 A 3 = Ok (ell log2 A 3), _ell log2 A 5 = Ok (ell log2 A 5),
         _ell log2 A 7 = Ok (ell log2 A 7) & _ell log2 A 9 = Ok (ell log2 A 9)]
  /\ [/\ (run == [:: 3%N]) = c3,
         (run == [:: 5%N]) = ~~ c3 && c5,
         (run == [:: 7%N]) = [&& ~~ c3, ~~ c5 & c7],
         (run == [:: 9%N]) = [&& ~~ c3, ~~ c5, ~~ c7 & c9]
       & (run == [:: 13%N]) = [&& ~~ c3, ~~ c5, ~~ c7 & ~~ c9]]
  /\ expm log2 fpow A =
       (if deg == 3%N then _solve_P_Q (pade3_UV A).1 (pade3_UV A).2 None
        else if deg == 5%N then _solve_P_Q (pade5_UV A).1 (pade5_UV A).2 None
        else if deg == 7%N then _solve_P_Q (pade7_UV A).1 (pade7_UV A).2 None
        else if deg == 9%N then _solve_P_Q (pade9_UV A).1 (pade9_UV A).2 None
        else
          let s := scaling log2 fpow A in
          X <-- _solve_P_Q (pade13_UV A s).1 (pade13_UV A s).2 None ;;
          Ok (squared (range_len s) X)).
Proof.
move=> eta1 eta3 c3 c5 c7 c9 deg run.
have [expmE callsE] : expm log2 fpow A = (expm_spec log2 fpow A).1
                      /\ expm_calls log2 fpow A = (expm_spec log2 fpow A).2.
  by rewrite -expm_runE.
have runE : run = [:: deg] by rewrite /run callsE evaluated_spec.
split=> //; split; first by split; rewrite _ellE.
rewrite runE expmE /deg /degree /expm_spec /use3 /use5 /use7 /use9.
rewrite -/eta1 -/eta3 -/c3 -/c5 -/c7 -/c9.
by case: c3; case: c5; case: c7; case: c9.
Qed.

(** C2.  In the degree-13 branch, with [eta5 = min(max(d6, d8), max(d8,
    d10))] and [theta13 = 4.25]: the initial exponent is [s0 = 0] when
    [eta5 == 0] and [max(ceil(log2(eta5 / theta13)), 0)] otherwise; it is
    refined to [s = s0 + ell(2^-s0 A, 13)]; the run calls
    [pade13_scaled(s)], solves once and then squares exactly [s] times, so
    that the result is the solution [X] raised to the power [2^s]. *)
Theorem expm_degree13_scaling_and_squaring A :
  degree log2 fpow A = 13%N ->
  let eta5 :=
    Num.min (Num.max (d6 fpow A) (d8 fpow A))
            (Num.max (d8 fpow A) (d10 fpow A)) in
  let theta13 : F := sci 425 2 in
  let s0 : int :=
    if eta5 == 0 then 0 else Num.max (Num.ceil (log2 (eta5 / theta13))) 0 in
  let s : int := s0 + ell log2 (2 ^ (- s0) *: A) 13 in
  let r := _solve_P_Q (pade13_UV A s).1 (pade13_UV A s).2 None in
  [/\ _ell log2 (2 ^ (- s0) *: A) 13 = Ok (ell log2 (2 ^ (- s0) *: A) 13),
      (range_len s)%:Z = s,
      expm_calls log2 fpow A =
        [:: call_pade13_scaled s, call_solve_P_Q
          & if is_ok r then nseq (range_len s) call_dot else [::]],
      expm log2 fpow A = (X <-- r ;; Ok (squared (range_len s) X))
    & forall X, squared (range_len s) X = X ^+ (2 ^ range_len s)].
Proof.
move=> deg13 eta5 theta13 s0 s r.
have [expmE callsE] : expm log2 fpow A = (expm_spec log2 fpow A).1
                      /\ expm_calls log2 fpow A = (expm_spec log2 fpow A).2.
  by rewrite -expm_runE.
have sE : s = scaling log2 fpow A by [].
split; first by rewrite _ellE.
- by rewrite range_len_ge0 // sE scaling_ge0.
- rewrite callsE; move: deg13; rewrite /degree /expm_spec.
  by do 4![case: ifP => // _].
- rewrite expmE; move: deg13; rewrite /degree /expm_spec.
  by do 4![case: ifP => // _].
- by move=> X; rewrite squaredE.
Qed.

(** C3.  In exact arithmetic (a power with [0 ** y = 0] for [y > 0]),
    [expm] of the n x n zero matrix, n >= 1, is the identity: the run
    takes the degree-3 branch, with [U = 0] and [V = 120 I], and the
    solve returns [I]. *)
Theorem expm_zero_matrix :
  (forall y : F, 0 < y -> fpow 0 y = 0) ->
  [/\ evaluated (expm_calls log2 fpow (0 : 'M[F]_n.+1)) = [:: 3%N],
      pade3_UV (0 : 'M[F]_n.+1) = (0, of_pos 120 *: 1%:M)
    & expm log2 fpow (0 : 'M[F]_n.+1) = Ok 1%:M].
Proof.
move=> fpow0.
have := expm_runE log2 fpow (0 : 'M[F]_n.+1).
rewrite /expm_spec (use3_zero log2 n fpow0) solve_pade3_zero.
by case=> -> ->; split; rewrite ?pade3_UV_zero.
Qed.

(** C4.  For a positive [m], [_ell(A, m)] returns the value [ell A m] of
    the specification: with [c = C(2m, m) * (2m+1)!] and [normAbsPower =
    onenormMatrixPowerNNM(abs(A), 2m+1)], it is 0 when [normAbsPower] is
    zero and [max(ceil(log2(alpha / u) / (2m)), 0)] otherwise, where
    [alpha = normAbsPower / (onenorm(A) * c)] and [u = 2^-53]; the value
    is a non-negative integer. *)
Theorem ell_spec A m :
  (0 < m)%N ->
  let c : F := 'C((2 * m)%N, m)%:R * ((2 * m + 1)%N`!)%:R in
  let normAbsPower := onenormMatrixPowerNNM (np_abs A) (2 * m + 1) in
  let alpha := normAbsPower / (_onenorm A * c) in
  let u : F := 2 ^- 53 in
  [/\ _onenorm_matrix_power_nnm (of_mx (np_abs A)) (2 * m + 1)%N%:R
        = Ok normAbsPower,
      _ell log2 A m =
        Ok (if normAbsPower == 0 then 0
            else Num.max (Num.ceil (log2 (alpha / u) / (2 * m)%N%:R)) 0)
    & forall v, _ell log2 A m = Ok v -> 0 <= v].
Proof.
move=> m_gt0 c normAbsPower alpha u.
split; first exact: onenorm_matrix_power_nnmE.
  by rewrite _ellE.
by rewrite _ellE // => v [<-]; apply: ell_ge0.
Qed.

(** C5.  For a square matrix [A] and a non-negative integer [p],
    [_onenorm_matrix_power_nnm(A, p)] returns the result of the algorithm
    of the specification: start from the column vector of ones, apply
    [v := A^T v] exactly [p] times, return [max(v)]; the vector reached
    is [(A^T)^p] applied to the ones. *)
Theorem onenorm_matrix_power_nnm_algorithm A p :
  let ones : 'cV[F]_n.+1 := const_mx 1 in
  _onenorm_matrix_power_nnm (of_mx A) p%:R
    = Ok (np_max (iter p (fun v => A^T *m v) ones))
  /\ iter p (fun v => A^T *m v) ones = (A^T) ^+ p *m ones.
Proof.
move=> ones; split; first exact: onenorm_matrix_power_nnmE.
elim: p => [|p IH] /=; first by rewrite expr0 mul1mx.
by rewrite IH mulmxA exprS.
Qed.

End Claims.

Section ClaimsOnArrays.
Variable F : archiRealFieldType.

(** C6.  [_onenorm_matrix_power_nnm(A, p)] raises [ValueError] (the
    specification's InvalidArgument) if and only if [p] is not a
    non-negative integer or [A] is not a square matrix (2-dimensional,
    n x n with n >= 1 as in the data model; on the empty 0 x 0 array it
    is [np.max] that raises); it raises nothing else; in particular it
    raises for [p = -1], for [p = 2.5] and for every non-square [A]. *)
Theorem onenorm_matrix_power_nnm_raises (A : ndarray F) (p : F) :
  [/\ raises_ValueError (_onenorm_matrix_power_nnm A p)
        = (p \isn't a Num.nat) || ~~ is_square_matrix A,
      raises (_onenorm_matrix_power_nnm A p)
        = raises_ValueError (_onenorm_matrix_power_nnm A p),
      raises_ValueError (_onenorm_matrix_power_nnm A (- 1)),
      raises_ValueError (_onenorm_matrix_power_nnm A (sci 25 1))
    & forall r c it,
        (r != c) ==>
        raises_ValueError (_onenorm_matrix_power_nnm (NdArray [:: r; c] it) p)].
Proof.
have two_half : (sci 25 1 : F) \isn't a Num.nat.
  apply/negP => /natrP [k xk].
  have k_gt2 : (2 < k)%N.
    rewrite -(ltr_nat F) -xk /sci expr1 ltr_pdivlMr ?ltr0n //.
    by rewrite of_posE -natrM ltr_nat.
  have : (k < 3)%N.
    rewrite -(ltr_nat F) -xk /sci expr1 ltr_pdivrMr ?ltr0n //.
    by rewrite of_posE -natrM ltr_nat.
  by rewrite ltnS leqNgt k_gt2.
split.
- exact: onenorm_matrix_power_nnm_raisesE.
- rewrite /raises onenorm_matrix_power_nnm_okE.
  by rewrite onenorm_matrix_power_nnm_raisesE negb_and.
- rewrite onenorm_matrix_power_nnm_raisesE natrEint negb_and.
  by rewrite ler0N1 orbT.
- by rewrite onenorm_matrix_power_nnm_raisesE two_half.
- move=> r c it; apply/implyP => rc.
  rewrite onenorm_matrix_power_nnm_raisesE /is_square_matrix /=.
  by rewrite (negbTE rc) orbT.
Qed.

End ClaimsOnArrays.

Section ClaimsOnHelper.
Variable F : archiRealFieldType.
Variable log2 : F -> F.
Variable fpow : F -> F -> F.
Variable n : nat.
Implicit Types (A X U V : 'M[F]_n.+1) (s : int) (m p : nat).
Implicit Types (h : _ExpmPadeHelper F n) (l : seq call).

(** C7.  In [pade13_scaled(s)], the scaled powers [B2 = 2^(-2s) A2],
    [B4 = 2^(-4s) A4], [B6 = 2^(-6s) A6] are the powers of [B = 2^-s A],
    and the pair returned is [U = B (B6 (b13 B6 + b11 B4 + b9 B2) + b7 B6
    + b5 B4 + b3 B2 + b1 I)], [V = B6 (b12 B6 + b10 B4 + b8 B2) + b6 B6 +
    b4 B4 + b2 B2 + b0 I], with the coefficients of the degree-13 table. *)
Theorem pade13_scaled_spec A s h l :
  cache_ok fpow A h ->
  let b := b13 F in
  let B := 2 ^ (- s) *: A in
  let B2 := 2 ^ (- 2 * s) *: A ^+ 2 in
  let B4 := 2 ^ (- 4 * s) *: A ^+ 4 in
  let B6 := 2 ^ (- 6 * s) *: A ^+ 6 in
  [/\ B2 = B ^+ 2, B4 = B ^+ 4, B6 = B ^+ 6,
      b = [:: of_pos 64764752532480000; of_pos 32382376266240000;
              of_pos 7771770303897600; of_pos 1187353796428800;
              of_pos 129060195264000; of_pos 10559470521600;
              of_pos 670442572800; of_pos 33522128640; of_pos 1323241920;
              of_pos 40840800; of_pos 960960; of_pos 16380; of_pos 182;
              of_pos 1]
    & (pade13_scaled s (h, l)).1 =
        Ok (B *m (B6 *m (b`_13 *: B6 + b`_11 *: B4 + b`_9 *: B2)
                  + b`_7 *: B6 + b`_5 *: B4 + b`_3 *: B2 + b`_1 *: 1%:M),
            B6 *m (b`_12 *: B6 + b`_10 *: B4 + b`_8 *: B2)
            + b`_6 *: B6 + b`_4 *: B4 + b`_2 *: B2 + b`_0 *: 1%:M)].
Proof.
move=> ok_h b B B2 B4 B6.
have [h' -> _] := pade13_scaled_yields s l ok_h.
by split; rewrite // /pade13_UV -?scaled_powerE.
Qed.

(** C9.  The loose norm bounds are the tight ones: [d4_loose],
    [d6_loose], [d8_loose] and [d10_loose] run as [d4_tight], [d6_tight],
    [d8_tight] and [d10_tight], whose value on a helper for [A] is
    [onenorm(A^k)^(1/k)]. *)
Theorem loose_bounds_are_tight A h l :
  cache_ok fpow A h ->
  [/\ d4_loose fpow (h, l) = d4_tight fpow (h, l)
      /\ (d4_tight fpow (h, l)).1 = Ok (fpow (_onenorm (A ^+ 4)) (1 / of_pos 4)),
      d6_loose fpow (h, l) = d6_tight fpow (h, l)
      /\ (d6_tight fpow (h, l)).1 = Ok (fpow (_onenorm (A ^+ 6)) (1 / of_pos 6)),
      d8_loose fpow (h, l) = d8_tight fpow (h, l)
      /\ (d8_tight fpow (h, l)).1 = Ok (fpow (_onenorm (A ^+ 8)) (1 / of_pos 8))
    & d10_loose fpow (h, l) = d10_tight fpow (h, l)
      /\ (d10_tight fpow (h, l)).1
         = Ok (fpow (_onenorm (A ^+ 10)) (1 / of_pos 10))].
Proof.
move=> ok_h; split; split=> //.
- by have [h' -> _] := d4_tight_yields l ok_h.
- by have [h' -> _] := d6_tight_yields l ok_h.
- by have [h' -> _] := d8_tight_yields l ok_h.
- by have [h' -> _] := d10_tight_yields l ok_h.
Qed.

(** C10.  In [_ell(A, m)] the division [alpha = normAbsPower /
    (onenorm(A) * c)] is guarded: [onenorm(A) = 0] forces [abs(A) = 0]
    and [normAbsPower = 0], which takes the early return; so whenever
    [normAbsPower] is not zero the divisor is positive, and for a positive
    [m] no division of [_ell] has a zero divisor: the call returns. *)
Theorem ell_division_guarded A m :
  (0 < m)%N ->
  let c : F := 'C((2 * m)%N, m)%:R * ((2 * m + 1)%N`!)%:R in
  let normAbsPower := onenormMatrixPowerNNM (np_abs A) (2 * m + 1) in
  [/\ _onenorm_matrix_power_nnm (of_mx (np_abs A)) (2 * m + 1)%N%:R
        = Ok normAbsPower,
      (_onenorm A == 0) ==> (np_abs A == 0) && (normAbsPower == 0),
      (normAbsPower != 0) ==> (0 < _onenorm A) && (0 < _onenorm A * c)
    & is_ok (_ell log2 A m)].
Proof.
move=> m_gt0 c normAbsPower; split.
- exact: onenorm_matrix_power_nnmE.
- apply/implyP => /eqP /(@onenorm0_power _ _ _ m) [abs0 pow0].
  by rewrite /normAbsPower pow0 abs0 !eqxx.
- apply/implyP => /power_neq0_onenorm norm_gt0.
  by rewrite norm_gt0 mulr_gt0 // abs_c_recip_gt0.
- by rewrite _ellE.
Qed.

End ClaimsOnHelper.

Section ClaimsOnSolve.
Variable F : archiRealFieldType.
Variable n : nat.

(** C8.  [_solve_P_Q(U, V)] forms [P = U + V] and [Q = V - U] and returns
    the solution [X] of [Q X = P]; it fails (LinAlgError, the
    specification's NumericalFailure) exactly when [Q] is singular. *)
Theorem solve_P_Q_spec (U V : 'M[F]_n) (structure : option string) :
  let P := U + V in
  let Q := V - U in
  [/\ raises (_solve_P_Q U V structure) = (\det Q == 0)
    & if \det Q == 0 then
        _solve_P_Q U V structure = Raise (LinAlgError "Singular matrix")
      else
        exists2 X, _solve_P_Q U V structure = Ok X
                   & Q *m X = P /\ (forall Y, Q *m Y = P -> Y = X)].
Proof.
move=> P Q; rewrite /_solve_P_Q [- U + V]addrC -/P -/Q.
have := linalg_solveP Q P; case: (\det Q == 0) => [->|[X -> QX]] //.
by split=> //; exists X.
Qed.

End ClaimsOnSolve.

(** * The theorems at concrete inputs *)

Lemma expm_degree13_witness :
  degree log2_rat fpow_rat example_3 = 13%N
  /\ (range_len (scaling log2_rat fpow_rat example_3))%:Z
     = scaling log2_rat fpow_rat example_3.
Proof.
split; first exact: degree13_example.
by have [] := expm_degree13_scaling_and_squaring degree13_example.
Defined.

Lemma expm_zero_matrix_witness :
  (forall y : rat, 0 < y -> fpow_rat 0 y = 0)
  /\ expm log2_rat fpow_rat (0 : 'M[rat]_2) = Ok 1%:M.
Proof.
split; first exact: fpow_rat0.
by have [] := @expm_zero_matrix rat log2_rat fpow_rat 1 fpow_rat0.
Defined.

Lemma ell_spec_witness :
  (0 < 3)%N /\ (forall v, _ell log2_rat example_I 3 = Ok v -> 0 <= v).
Proof.
split=> //.
by have [] := @ell_spec rat log2_rat 1 example_I 3 isT.
Defined.

Lemma pade13_scaled_spec_witness :
  cache_ok fpow_rat example_I (__init__ example_I true)
  /\ 2 ^ (- 2 * 1) *: example_I ^+ 2 = (2 ^ (- 1) *: example_I) ^+ 2.
Proof.
split; first exact: cache_ok_init.
have [] // := @pade13_scaled_spec rat fpow_rat 1 example_I 1 _ [::]
                (cache_ok_init fpow_rat example_I true).
Defined.

Lemma loose_bounds_are_tight_witness :
  cache_ok fpow_rat example_I (__init__ example_I true)
  /\ d4_loose fpow_rat (__init__ example_I true, [::])
     = d4_tight fpow_rat (__init__ example_I true, [::]).
Proof.
split; first exact: cache_ok_init.
by have [[]] := @loose_bounds_are_tight rat fpow_rat 1 example_I _ [::]
                  (cache_ok_init fpow_rat example_I true).
Defined.

Lemma ell_division_guarded_witness :
  (0 < 3)%N /\ is_ok (_ell log2_rat example_I 3).
Proof.
split=> //.
by have [] := @ell_division_guarded rat log2_rat 1 example_I 3 isT.
Defined.

(** * Lemmas for the further properties *)

(** ** The norm estimator on non-negative matrices *)

Section NonnegPowers.
Variable F : archiRealFieldType.
Variable n : nat.
Implicit Types (A B : 'M[F]_n.+1) (p : nat).

Lemma nonneg_mxP (m k : nat) (A : 'M[F]_(m, k)) :
  reflect (forall i j, 0 <= A i j) (nonneg_mx A).
Proof.
apply: (iffP forallP) => [A0 i j|A0 i]; first exact: (forallP (A0 i)).
by apply/forallP => j.
Qed.

Lemma nonneg_abs (m k : nat) (A : 'M[F]_(m, k)) : nonneg_mx (np_abs A).
Proof. by apply/nonneg_mxP => i j; rewrite mxE. Qed.

Lemma nonneg_mul (A B : 'M[F]_n.+1) :
  nonneg_mx A -> nonneg_mx B -> nonneg_mx (A *m B).
Proof.
move=> /nonneg_mxP A0 /nonneg_mxP B0; apply/nonneg_mxP => i j.
by rewrite mxE sumr_ge0 // => k _; rewrite mulr_ge0.
Qed.

Lemma nonneg_exp A p : nonneg_mx A -> nonneg_mx (A ^+ p).
Proof.
move=> A0; elim: p => [|p IH].
  by rewrite expr0; apply/nonneg_mxP => i j; rewrite mxE; case: eqP.
by rewrite exprS -mulmxE nonneg_mul.
Qed.

Lemma trmx_exp A p : (A^T) ^+ p = (A ^+ p)^T.
Proof.
elim: p => [|p IH]; first by rewrite !expr0 trmx1.
by rewrite exprS IH exprSr -!mulmxE trmx_mul.
Qed.

Lemma iter_mulmxE (M : 'M[F]_n.+1) (v : 'cV[F]_n.+1) p :
  iter p (fun w => M *m w) v = M ^+ p *m v.
Proof.
elim: p => [|p IH] /=; first by rewrite expr0 mul1mx.
by rewrite IH mulmxA exprS.
Qed.

Lemma colsum_nonneg (A : 'M[F]_n.+1) j :
  nonneg_mx A -> colsum A j = (A^T *m (const_mx 1 : 'cV[F]_n.+1)) j ord0.
Proof.
move=> /nonneg_mxP A0; rewrite /colsum !mxE; apply: eq_bigr => i _.
by rewrite !mxE mulr1 ger0_norm.
Qed.

Lemma onenormMatrixPowerNNM_nonneg A p :
  nonneg_mx A -> onenormMatrixPowerNNM A p = _onenorm (A ^+ p).
Proof.
move=> A0; rewrite /onenormMatrixPowerNNM /= iter_mulmxE trmx_exp.
have Ap0 := nonneg_exp p A0.
rewrite /_onenorm /linalg_norm1 /np_max -colsum_nonneg //.
by apply: eq_bigr => j _; rewrite -colsum_nonneg.
Qed.

End NonnegPowers.

(** ** [_ell] sees only the absolute values of the entries *)

Section EllAbs.
Variable F : archiRealFieldType.
Variable log2 : F -> F.
Variable n : nat.
Implicit Types (A B : 'M[F]_n.+1) (m p : nat).

Lemma np_abs_id (m k : nat) (A : 'M[F]_(m, k)) : np_abs (np_abs A) = np_abs A.
Proof. by apply/matrixP => i j; rewrite !mxE normr_id. Qed.

Lemma np_absN (m k : nat) (A : 'M[F]_(m, k)) : np_abs (- A) = np_abs A.
Proof. by apply/matrixP => i j; rewrite !mxE normrN. Qed.

Lemma np_abs_nonneg (m k : nat) (A : 'M[F]_(m, k)) :
  nonneg_mx A -> np_abs A = A.
Proof.
by move=> /nonneg_mxP A0; apply/matrixP => i j; rewrite !mxE ger0_norm.
Qed.

Lemma linalg_norm1_abs (m k : nat) (A : 'M[F]_(m, k.+1)) :
  linalg_norm1 (np_abs A) = linalg_norm1 A.
Proof.
have colsumE j : colsum (np_abs A) j = colsum A j.
  by apply: eq_bigr => i _; rewrite mxE normr_id.
by rewrite /linalg_norm1 colsumE; apply: eq_bigr => j _.
Qed.

Lemma _ell_abs A m : _ell log2 (np_abs A) m = _ell log2 A m.
Proof. by rewrite /_ell np_abs_id /_onenorm linalg_norm1_abs. Qed.

Lemma _ell_eq_abs A B m :
  np_abs A = np_abs B -> _ell log2 A m = _ell log2 B m.
Proof. by move=> eqAB; rewrite -_ell_abs eqAB _ell_abs. Qed.

Lemma abs_power_onenorm A p :
  _onenorm_matrix_power_nnm (of_mx (np_abs A)) p%:R
  = Ok (_onenorm (np_abs A ^+ p)).
Proof.
by rewrite onenorm_matrix_power_nnmE onenormMatrixPowerNNM_nonneg ?nonneg_abs.
Qed.

Lemma _ell_early_return A m :
  np_abs A ^+ (2 * m + 1) = 0 -> _ell log2 A m = Ok 0.
Proof.
by move=> pow0; rewrite /_ell abs_power_onenorm pow0 onenorm0 /= eqxx.
Qed.

End EllAbs.

(** ** The errors of [_onenorm_matrix_power_nnm] *)

Section ErrorMessages.
Variable F : archiRealFieldType.

Lemma onenorm_matrix_power_nnm_cases (A : ndarray F) (p : F) :
  _onenorm_matrix_power_nnm A p =
    if p \isn't a Num.nat then
      Raise (ValueError "expected non-negative integer p")
    else if ~~ is_square_shape (shape A) then
      Raise (ValueError "expected A to be like a square matrix")
    else if nth 0%N (shape A) 0 is k.+1 then
      Ok (onenormMatrixPowerNNM (to_mx k.+1 k.+1 A) (range_len (pyint p)))
    else Raise (ValueError "zero-size array to reduction operation maximum").
Proof.
rewrite /_onenorm_matrix_power_nnm pyint_check; case: ifP => // _.
rewrite /is_square_shape.
by case: (shape A) => [|r [|c [|k sh]]].
Qed.

End ErrorMessages.

(** ** [_onenorm] is a sub-multiplicative norm *)

Section NormLaws.
Variable F : archiRealFieldType.
Variable n : nat.
Implicit Types (A B : 'M[F]_n.+1) (c : F).

Lemma linalg_norm1_le A x :
  (forall j, colsum A j <= x) -> linalg_norm1 A <= x.
Proof. by move=> le_x; apply: bigmax_le => // j _. Qed.

Lemma colsumZ c A j : colsum (c *: A) j = `|c| * colsum A j.
Proof.
rewrite /colsum mulr_sumr; apply: eq_bigr => i _.
by rewrite mxE normrM.
Qed.

Lemma linalg_norm1Z c A : linalg_norm1 (c *: A) = `|c| * linalg_norm1 A.
Proof.
rewrite /linalg_norm1 (big_morph _ (fun x y => maxr_pMr x y (normr_ge0 c))
                                  (erefl _)).
by rewrite colsumZ; apply: eq_bigr => j _; rewrite colsumZ.
Qed.

Lemma linalg_norm1D A B :
  linalg_norm1 (A + B) <= linalg_norm1 A + linalg_norm1 B.
Proof.
apply: linalg_norm1_le => j.
apply: (@le_trans _ _ (colsum A j + colsum B j)).
  rewrite /colsum -big_split /=; apply: ler_sum => i _.
  by rewrite mxE ler_normD.
by rewrite lerD ?colsum_le_norm1.
Qed.

Lemma linalg_norm1M A B :
  linalg_norm1 (A *m B) <= linalg_norm1 A * linalg_norm1 B.
Proof.
apply: linalg_norm1_le => j.
apply: (@le_trans _ _ (linalg_norm1 A * colsum B j)); last first.
  by rewrite ler_wpM2l ?linalg_norm1_ge0 ?colsum_le_norm1.
rewrite /colsum mulr_sumr.
apply: (@le_trans _ _ (\sum_i \sum_k `|A i k| * `|B k j|)).
  apply: ler_sum => i _; rewrite mxE.
  apply: le_trans (ler_norm_sum _ _ _) _.
  by apply: ler_sum => k _; rewrite normrM.
rewrite exchange_big /=; apply: ler_sum => k _.
by rewrite -mulr_suml ler_wpM2r ?colsum_le_norm1.
Qed.

End NormLaws.

(** ** Memoization: a second access changes nothing *)

Section Memoization.
Variable F : archiRealFieldType.
Variable fpow : F -> F -> F.
Variable n : nat.
Implicit Types (st : state F n).

Lemma A2_twice st : @A2 F n (A2 st).2 = A2 st.
Proof. by case: st => -[a [a2|] *]. Qed.

Lemma A4_twice st : @A4 F n (A4 st).2 = A4 st.
Proof. by case: st => -[a [a2|] [a4|] *]. Qed.

Lemma A6_twice st : @A6 F n (A6 st).2 = A6 st.
Proof. by case: st => -[a [a2|] [a4|] [a6|] *]. Qed.

Lemma A8_twice st : @A8 F n (A8 st).2 = A8 st.
Proof. by case: st => -[a [a2|] [a4|] [a6|] [a8|] *]. Qed.

Lemma A10_twice st : @A10 F n (A10 st).2 = A10 st.
Proof. by case: st => -[a [a2|] [a4|] [a6|] a8 [a10|] *]. Qed.

Lemma d4_tight_twice st : d4_tight fpow (d4_tight fpow st).2 = d4_tight fpow st.
Proof. by case: st => -[a [a2|] [a4|] a6 a8 a10 [d4|] *]. Qed.

Lemma d6_tight_twice st : d6_tight fpow (d6_tight fpow st).2 = d6_tight fpow st.
Proof. by case: st => -[a [a2|] [a4|] [a6|] a8 a10 d4 [d6|] *]. Qed.

Lemma d8_tight_twice st : d8_tight fpow (d8_tight fpow st).2 = d8_tight fpow st.
Proof. by case: st => -[a [a2|] [a4|] [a6|] [a8|] a10 d4 d6 [d8|] *]. Qed.

Lemma d10_tight_twice st :
  d10_tight fpow (d10_tight fpow st).2 = d10_tight fpow st.
Proof. by case: st => -[a [a2|] [a4|] [a6|] a8 [a10|] d4 d6 d8 [d10|] *]. Qed.

End Memoization.

(** ** Frame rules: what a computation leaves alone *)

Section Frames.
Variable F : archiRealFieldType.
Variable fpow : F -> F -> F.
Variable n : nat.
Implicit Types (P : _ExpmPadeHelper F n -> Prop) (A : 'M[F]_n.+1).

Lemma keeps_ret P (T : Type) (x : T) : keeps P (ret x).
Proof. by []. Qed.

Lemma keeps_lift P (T : Type) (r : result T) : keeps P (lift r).
Proof. by []. Qed.

Lemma keeps_log P c : keeps P (log c).
Proof. by []. Qed.

Lemma keeps_read P (T : Type) (f : _ExpmPadeHelper F n -> T) :
  keeps P (read f).
Proof. by []. Qed.

Lemma keeps_write P (upd : _ExpmPadeHelper F n -> _ExpmPadeHelper F n) :
  (forall h, P h -> P (upd h)) -> keeps P (write upd).
Proof. by move=> Pupd st; apply: Pupd. Qed.

Lemma keeps_bind P (T U : Type) (m : M F n T) (k : T -> M F n U) :
  keeps P m -> (forall x, keeps P (k x)) -> keeps P (bind m k).
Proof.
move=> Pm Pk st Pst; rewrite /bind; move: (Pm st Pst).
by case: (m st) => -[x|e] st' //=; apply: Pk.
Qed.

Lemma keeps_for_range P (T : Type) k (body : T -> M F n T) x :
  (forall y, keeps P (body y)) -> keeps P (for_range k body x).
Proof.
by move=> Pbody; elim: k x => [|k IH] x //=; apply: keeps_bind.
Qed.

Lemma keeps_andM P b (e : M F n bool) : keeps P e -> keeps P (andM b e).
Proof. by case: b => // _; apply: keeps_ret. Qed.

Lemma yields_with_intro P A (T : Type) (m : M F n T) r cs :
  yields fpow A m r cs -> keeps P m -> yields_with fpow P A m r cs.
Proof.
move=> ym Pm h l ok_h Ph; have [h' eq_m ok_h'] := ym h l ok_h.
by exists h' => //; split=> //; have := Pm (h, l) Ph; rewrite eq_m.
Qed.

Lemma yields_with_bind P A (T U : Type) (m : M F n T) (k : T -> M F n U)
    x cs1 r cs2 :
  yields_with fpow P A m (Ok x) cs1 -> yields_with fpow P A (k x) r cs2 ->
  yields_with fpow P A (bind m k) r (cs1 ++ cs2).
Proof.
move=> ym yk h l ok_h Ph; rewrite /bind.
have [h1 -> [ok_h1 Ph1]] := ym h l ok_h Ph.
have [h2 -> [ok_h2 Ph2]] := yk h1 (l ++ cs1) ok_h1 Ph1.
by exists h2; rewrite ?catA.
Qed.

Lemma yields_with_bind0 P A (T U : Type) (m : M F n T) (k : T -> M F n U)
    x r cs :
  yields_with fpow P A m (Ok x) [::] -> yields_with fpow P A (k x) r cs ->
  yields_with fpow P A (bind m k) r cs.
Proof. exact: yields_with_bind. Qed.

Lemma yields_with_bind1 P A (T U : Type) (m : M F n T) (k : T -> M F n U)
    x c r cs :
  yields_with fpow P A m (Ok x) [:: c] -> yields_with fpow P A (k x) r cs ->
  yields_with fpow P A (bind m k) r (c :: cs).
Proof. exact: yields_with_bind. Qed.

End Frames.

(** [keeps_step] takes one step of a proof of [keeps P m]; a write is
    left to its own justification. *)
Ltac keeps_step :=
  first [ apply: keeps_ret | apply: keeps_lift | apply: keeps_log
        | apply: keeps_read
        | apply: keeps_bind => [|?]
        | apply: keeps_for_range => ?
        | match goal with
          | |- keeps _ (match ?x with Some _ => _ | None => _ end) =>
              case: x => [?|]
          | |- keeps _ (if ?b then _ else _) => case: b
          end ].

(** The properties, the evaluators and the driver keep every [P] that
    the assignments they make keep. *)

Section KeepsHelper.
Variable F : archiRealFieldType.
Variable log2 : F -> F.
Variable fpow : F -> F -> F.
Variable n : nat.
Variable P : _ExpmPadeHelper F n -> Prop.
Hypothesis P_A2 : forall v h, P h -> P (set_A2 v h).
Hypothesis P_A4 : forall v h, P h -> P (set_A4 v h).
Hypothesis P_A6 : forall v h, P h -> P (set_A6 v h).
Hypothesis P_A8 : forall v h, P h -> P (set_A8 v h).
Hypothesis P_A10 : forall v h, P h -> P (set_A10 v h).
Hypothesis P_d4 : forall v h, P h -> P (set_d4_exact v h).
Hypothesis P_d6 : forall v h, P h -> P (set_d6_exact v h).
Hypothesis P_d8 : forall v h, P h -> P (set_d8_exact v h).
Hypothesis P_d10 : forall v h, P h -> P (set_d10_exact v h).

Lemma keeps_A2 : keeps P (@A2 F n).
Proof.
rewrite /A2; repeat keeps_step.
exact: keeps_write (P_A2 _).
Qed.

Lemma keeps_A4 : keeps P (@A4 F n).
Proof.
rewrite /A4; repeat first [exact: keeps_A2 | keeps_step].
exact: keeps_write (P_A4 _).
Qed.

Lemma keeps_A6 : keeps P (@A6 F n).
Proof.
rewrite /A6; repeat first [exact: keeps_A2 | exact: keeps_A4 | keeps_step].
exact: keeps_write (P_A6 _).
Qed.

Lemma keeps_A8 : keeps P (@A8 F n).
Proof.
rewrite /A8; repeat first [exact: keeps_A2 | exact: keeps_A6 | keeps_step].
exact: keeps_write (P_A8 _).
Qed.

Lemma keeps_A10 : keeps P (@A10 F n).
Proof.
rewrite /A10; repeat first [exact: keeps_A4 | exact: keeps_A6 | keeps_step].
exact: keeps_write (P_A10 _).
Qed.

Lemma keeps_d4_tight : keeps P (@d4_tight F fpow n).
Proof.
rewrite /d4_tight; repeat first [exact: keeps_A4 | keeps_step].
exact: keeps_write (P_d4 _).
Qed.

Lemma keeps_d6_tight : keeps P (@d6_tight F fpow n).
Proof.
rewrite /d6_tight; repeat first [exact: keeps_A6 | keeps_step].
exact: keeps_write (P_d6 _).
Qed.

Lemma keeps_d8_tight : keeps P (@d8_tight F fpow n).
Proof.
rewrite /d8_tight; repeat first [exact: keeps_A8 | keeps_step].
exact: keeps_write (P_d8 _).
Qed.

Lemma keeps_d10_tight : keeps P (@d10_tight F fpow n).
Proof.
rewrite /d10_tight; repeat first [exact: keeps_A10 | keeps_step].
exact: keeps_write (P_d10 _).
Qed.

Lemma keeps_pade3 : keeps P (@pade3 F n).
Proof. by rewrite /pade3; repeat first [exact: keeps_A2 | keeps_step]. Qed.

Lemma keeps_pade5 : keeps P (@pade5 F n).
Proof.
by rewrite /pade5; repeat first [exact: keeps_A2 | exact: keeps_A4
                                | keeps_step].
Qed.

Lemma keeps_pade7 : keeps P (@pade7 F n).
Proof.
by rewrite /pade7; repeat first [exact: keeps_A2 | exact: keeps_A4
                                | exact: keeps_A6 | keeps_step].
Qed.

Lemma keeps_pade9 : keeps P (@pade9 F n).
Proof.
by rewrite /pade9; repeat first [exact: keeps_A2 | exact: keeps_A4
                                | exact: keeps_A6 | exact: keeps_A8
                                | keeps_step].
Qed.

Lemma keeps_pade13_scaled s : keeps P (@pade13_scaled F n s).
Proof.
by rewrite /pade13_scaled; repeat first [exact: keeps_A2 | exact: keeps_A4
                                        | exact: keeps_A6 | keeps_step].
Qed.

Lemma keeps_ell_is_zero m : keeps P (@ell_is_zero F log2 n m).
Proof. by rewrite /ell_is_zero; repeat keeps_step. Qed.

Lemma keeps_solve_step UV : keeps P (@solve_step F n UV).
Proof. by rewrite /solve_step; repeat keeps_step. Qed.

Lemma keeps_expm_body : keeps P (@expm_body F log2 fpow n).
Proof.
by rewrite /expm_body /d4_loose /d6_loose /d8_loose /d10_loose;
   repeat first [ apply: keeps_andM | exact: keeps_d4_tight | exact: keeps_d6_tight
                | exact: keeps_d8_tight | exact: keeps_d10_tight
                | exact: keeps_ell_is_zero | exact: keeps_solve_step
                | exact: keeps_pade3 | exact: keeps_pade5
                | exact: keeps_pade7 | exact: keeps_pade9
                | exact: keeps_pade13_scaled | keeps_step ].
Qed.

End KeepsHelper.

(** [keeps_tac] proves that a property, an evaluator or a step of the
    driver keeps a [P] that is about attributes it does not assign. *)
Ltac keeps_tac :=
  rewrite /d4_loose /d6_loose /d8_loose /d10_loose;
  try apply: keeps_andM;
  first [ apply: keeps_d4_tight | apply: keeps_d6_tight
        | apply: keeps_d8_tight | apply: keeps_ell_is_zero
        | apply: keeps_solve_step | apply: keeps_pade3 | apply: keeps_pade5
        | apply: keeps_pade7 | apply: keeps_pade9 ];
  by move=> ? [].

(** One statement of a run with an invariant: the value comes from the
    [yields] lemma [L], the invariant from the frame rules. *)
Ltac wstep L :=
  eapply yields_with_bind0;
  [apply: yields_with_intro; [exact: (L) | by keeps_tac] |].

Ltac wlast L := apply: yields_with_intro; [exact: (L) | by keeps_tac].

Section Laziness.
Variable F : archiRealFieldType.
Variable log2 : F -> F.
Variable fpow : F -> F -> F.
Variable n : nat.
Implicit Types (A : 'M[F]_n.+1) (P : _ExpmPadeHelper F n -> Prop).

Lemma no_order8_10 (h : _ExpmPadeHelper F n) : no_order8 h -> no_order10 h.
Proof. by case. Qed.

Lemma no_order_init A b :
  no_order8 (__init__ A b).
Proof. by []. Qed.

Lemma expm_body_low35 A :
  use3 log2 fpow A || use5 log2 fpow A ->
  yields_with fpow (@no_order8 F n) A (@expm_body F log2 fpow n)
    (expm_spec log2 fpow A).1 (expm_spec log2 fpow A).2.
Proof.
move=> low; rewrite /expm_body /expm_spec.
wstep d4_tight_yields; wstep d6_tight_yields.
wstep (@ell_is_zero_yields F log2 fpow n A 3); rewrite -/(use3 log2 fpow A).
case: ifP => u3 /=.
  eapply yields_with_bind1; first by wlast pade3_yields.
  by wlast solve_step_yields.
wstep d4_tight_yields; wstep d6_tight_yields.
wstep (@ell_is_zero_yields F log2 fpow n A 5); rewrite -/(use5 log2 fpow A).
case: ifP => u5 /=; last by move: low; rewrite u3 u5.
eapply yields_with_bind1; first by wlast pade5_yields.
by wlast solve_step_yields.
Qed.

Lemma expm_body_low79 A :
  degree log2 fpow A != 13%N ->
  yields_with fpow (@no_order10 F n) A (@expm_body F log2 fpow n)
    (expm_spec log2 fpow A).1 (expm_spec log2 fpow A).2.
Proof.
move=> low; rewrite /expm_body /expm_spec.
wstep d4_tight_yields; wstep d6_tight_yields.
wstep (@ell_is_zero_yields F log2 fpow n A 3); rewrite -/(use3 log2 fpow A).
case: ifP => u3 /=.
  eapply yields_with_bind1; first by wlast pade3_yields.
  by wlast solve_step_yields.
wstep d4_tight_yields; wstep d6_tight_yields.
wstep (@ell_is_zero_yields F log2 fpow n A 5); rewrite -/(use5 log2 fpow A).
case: ifP => u5 /=.
  eapply yields_with_bind1; first by wlast pade5_yields.
  by wlast solve_step_yields.
wstep d6_tight_yields; wstep d8_tight_yields.
wstep (@ell_is_zero_yields F log2 fpow n A 7); rewrite -/(use7 log2 fpow A).
case: ifP => u7 /=.
  eapply yields_with_bind1; first by wlast pade7_yields.
  by wlast solve_step_yields.
wstep (@ell_is_zero_yields F log2 fpow n A 9); rewrite -/(use9 log2 fpow A).
case: ifP => u9 /=; last by move: low; rewrite /degree u3 u5 u7 u9.
eapply yields_with_bind1; first by wlast pade9_yields.
by wlast solve_step_yields.
Qed.

Lemma expm_final_cache A : cache_ok fpow A (expm_run log2 fpow A).2.1.
Proof.
rewrite /expm_run.
by have [h' -> ok_h'] := expm_body_yields log2 [::] (cache_ok_init fpow A true).
Qed.

Lemma expm_final_no_order8 A :
  use3 log2 fpow A || use5 log2 fpow A ->
  no_order8 (expm_run log2 fpow A).2.1.
Proof.
move=> low; rewrite /expm_run.
have [h' -> [_ //]] :=
  expm_body_low35 low [::] (cache_ok_init fpow A true) (no_order_init A true).
Qed.

Lemma expm_final_no_order10 A :
  degree log2 fpow A != 13%N -> no_order10 (expm_run log2 fpow A).2.1.
Proof.
move=> low; rewrite /expm_run.
have [h' -> [_ //]] :=
  expm_body_low79 low [::] (cache_ok_init fpow A true)
    (no_order8_10 (no_order_init A true)).
Qed.

End Laziness.

(** ** The errors of [expm] and the algebra of its result *)

Section ResultAlgebra.
Variable F : archiRealFieldType.
Variable log2 : F -> F.
Variable fpow : F -> F -> F.
Variable n : nat.
Implicit Types (A U V X Y : 'M[F]_n.+1) (s : int).

Lemma expm_specE A :
  (expm_spec log2 fpow A).1 =
    if degree log2 fpow A == 13%N then
      X <-- solve_UV (selected_UV log2 fpow A) ;;
      Ok (squared (range_len (scaling log2 fpow A)) X)
    else solve_UV (selected_UV log2 fpow A).
Proof.
by rewrite /expm_spec /degree /selected_UV; do 4![case: ifP => _ //].
Qed.

Lemma expmE A : expm log2 fpow A = (expm_spec log2 fpow A).1.
Proof. by rewrite -expm_runE. Qed.

Lemma solve_UV_cases (UV : 'M[F]_n.+1 * 'M[F]_n.+1) :
  solve_UV UV =
    if \det (UV.2 - UV.1) == 0 then Raise (LinAlgError "Singular matrix")
    else Ok (invmx (UV.2 - UV.1) *m (UV.1 + UV.2)).
Proof.
rewrite /solve_UV /_solve_P_Q /linalg_solve [- _ + _]addrC unitmxE unitfE.
by case: (_ == 0).
Qed.

(** Commutation with the input. *)
Lemma commr_scale A B (c : F) : GRing.comm A B -> GRing.comm A (c *: B).
Proof. by rewrite /GRing.comm -scalerAr -scalerAl => ->. Qed.

Ltac comm_tac :=
  rewrite ?mulmxE;
  repeat first [ assumption | exact: erefl | apply: commr1
               | apply: commrD | apply: commrM | apply: commr_scale
               | apply: commrX ].

Lemma pade3_comm A : GRing.comm A (pade3_UV A).1 /\ GRing.comm A (pade3_UV A).2.
Proof. by split; rewrite /pade3_UV /=; comm_tac. Qed.

Lemma pade5_comm A : GRing.comm A (pade5_UV A).1 /\ GRing.comm A (pade5_UV A).2.
Proof. by split; rewrite /pade5_UV /=; comm_tac. Qed.

Lemma pade7_comm A : GRing.comm A (pade7_UV A).1 /\ GRing.comm A (pade7_UV A).2.
Proof. by split; rewrite /pade7_UV /=; comm_tac. Qed.

Lemma pade9_comm A : GRing.comm A (pade9_UV A).1 /\ GRing.comm A (pade9_UV A).2.
Proof. by split; rewrite /pade9_UV /=; comm_tac. Qed.

Lemma pade13_comm A s :
  GRing.comm A (pade13_UV A s).1 /\ GRing.comm A (pade13_UV A s).2.
Proof.
have cAB : GRing.comm A (2 ^ (- s) *: A) by apply: commr_scale.
by split; rewrite /pade13_UV /=; comm_tac.
Qed.

Lemma selected_comm A :
  GRing.comm A (selected_UV log2 fpow A).1
  /\ GRing.comm A (selected_UV log2 fpow A).2.
Proof.
rewrite /selected_UV; do 4![case: ifP => _; first
  by [exact: pade3_comm | exact: pade5_comm | exact: pade7_comm
     | exact: pade9_comm]].
exact: pade13_comm.
Qed.

Lemma solve_comm A (UV : 'M[F]_n.+1 * 'M[F]_n.+1) X :
  GRing.comm A UV.1 -> GRing.comm A UV.2 -> solve_UV UV = Ok X ->
  GRing.comm A X.
Proof.
move=> cU cV; rewrite solve_UV_cases; case: ifP => // _ [<-].
rewrite mulmxE; apply: commrM; last exact: commrD.
by apply: (@commrV _ A (UV.2 - UV.1)); apply: commrB.
Qed.

Lemma squared_comm A k X : GRing.comm A X -> GRing.comm A (squared k X).
Proof. by move=> cAX; rewrite squaredE; apply: commrX. Qed.

Lemma expm_comm A X : expm log2 fpow A = Ok X -> A *m X = X *m A.
Proof.
have [cU cV] := selected_comm A.
rewrite expmE expm_specE; case: ifP => _; last exact: solve_comm.
case solveE: (solve_UV _) => [X0|] //= [<-].
by apply: squared_comm; apply: solve_comm solveE.
Qed.

End ResultAlgebra.

(** ** Negating the input *)

Section Negation.
Variable F : archiRealFieldType.
Variable log2 : F -> F.
Variable fpow : F -> F -> F.
Variable n : nat.
Implicit Types (A U V X Y : 'M[F]_n.+1) (s : int).

Lemma expr_evenN A k : (- A) ^+ (2 * k) = A ^+ (2 * k).
Proof. by rewrite !exprM sqrrN. Qed.

Lemma linalg_norm1N (m k : nat) (A : 'M[F]_(m, k.+1)) :
  linalg_norm1 (- A) = linalg_norm1 A.
Proof. by rewrite -linalg_norm1_abs np_absN linalg_norm1_abs. Qed.

Lemma ellN A m : ell log2 (- A) m = ell log2 A m.
Proof. by rewrite /ell np_absN linalg_norm1N. Qed.

Lemma d4N A : d4 fpow (- A) = d4 fpow A.
Proof. by rewrite /d4 (expr_evenN A 2). Qed.

Lemma d6N A : d6 fpow (- A) = d6 fpow A.
Proof. by rewrite /d6 (expr_evenN A 3). Qed.

Lemma d8N A : d8 fpow (- A) = d8 fpow A.
Proof. by rewrite /d8 (expr_evenN A 4). Qed.

Lemma d10N A : d10 fpow (- A) = d10 fpow A.
Proof. by rewrite /d10 (expr_evenN A 5). Qed.

Lemma use3N A : use3 log2 fpow (- A) = use3 log2 fpow A.
Proof. by rewrite /use3 d4N d6N ellN. Qed.

Lemma use5N A : use5 log2 fpow (- A) = use5 log2 fpow A.
Proof. by rewrite /use5 d4N d6N ellN. Qed.

Lemma use7N A : use7 log2 fpow (- A) = use7 log2 fpow A.
Proof. by rewrite /use7 d6N d8N ellN. Qed.

Lemma use9N A : use9 log2 fpow (- A) = use9 log2 fpow A.
Proof. by rewrite /use9 d6N d8N ellN. Qed.

Lemma degreeN A : degree log2 fpow (- A) = degree log2 fpow A.
Proof. by rewrite /degree use3N use5N use7N use9N. Qed.

Lemma scaling0N A : scaling0 log2 fpow (- A) = scaling0 log2 fpow A.
Proof. by rewrite /scaling0 /eta5 d6N d8N d10N. Qed.

Lemma scalingN A : scaling log2 fpow (- A) = scaling log2 fpow A.
Proof. by rewrite /scaling scaling0N scalerN ellN. Qed.

Lemma pade3_UVN A : pade3_UV (- A) = (- (pade3_UV A).1, (pade3_UV A).2).
Proof. by rewrite /pade3_UV /= sqrrN mulNmx. Qed.

Lemma pade5_UVN A : pade5_UV (- A) = (- (pade5_UV A).1, (pade5_UV A).2).
Proof. by rewrite /pade5_UV /= sqrrN (expr_evenN A 2) mulNmx. Qed.

Lemma pade7_UVN A : pade7_UV (- A) = (- (pade7_UV A).1, (pade7_UV A).2).
Proof.
by rewrite /pade7_UV /= sqrrN (expr_evenN A 2) (expr_evenN A 3) mulNmx.
Qed.

Lemma pade9_UVN A : pade9_UV (- A) = (- (pade9_UV A).1, (pade9_UV A).2).
Proof.
rewrite /pade9_UV /= sqrrN (expr_evenN A 2) (expr_evenN A 3).
by rewrite (expr_evenN A 4) mulNmx.
Qed.

Lemma pade13_UVN A s :
  pade13_UV (- A) s = (- (pade13_UV A s).1, (pade13_UV A s).2).
Proof.
rewrite /pade13_UV /= scalerN sqrrN.
by rewrite (expr_evenN _ 2) (expr_evenN _ 3) mulNmx.
Qed.

Lemma selected_UVN A :
  selected_UV log2 fpow (- A)
  = (- (selected_UV log2 fpow A).1, (selected_UV log2 fpow A).2).
Proof.
rewrite /selected_UV use3N use5N use7N use9N scalingN.
do 4![case: ifP => _; first
  by [exact: pade3_UVN | exact: pade5_UVN | exact: pade7_UVN
     | exact: pade9_UVN]].
exact: pade13_UVN.
Qed.

Lemma solve_negate U V X Y :
  solve_UV (U, V) = Ok X -> solve_UV (- U, V) = Ok Y ->
  X *m Y = 1%:M /\ Y *m X = 1%:M.
Proof.
rewrite !solve_UV_cases /= opprK [V + U]addrC [- U + V]addrC.
case: ifP => // /negbT detQ [<-]; case: ifP => // /negbT detP [<-].
have Qu : V - U \in unitmx by rewrite unitmxE unitfE.
have Pu : U + V \in unitmx by rewrite unitmxE unitfE.
split.
  by rewrite mulmxA -[_ *m _ *m invmx _]mulmxA mulmxV // mulmx1 mulVmx.
by rewrite mulmxA -[_ *m _ *m invmx _]mulmxA mulmxV // mulmx1 mulVmx.
Qed.

Lemma squared_inverse k X Y :
  X *m Y = 1%:M -> Y *m X = 1%:M -> squared k X *m squared k Y = 1%:M.
Proof.
move=> XY YX; rewrite !squaredE.
have cXY : GRing.comm X Y.
  by rewrite /GRing.comm -[X * Y]/(X *m Y) -[Y * X]/(Y *m X) XY YX.
by rewrite mulmxE -exprMn_comm // -[X * Y]/(X *m Y) XY expr1n.
Qed.

Lemma expm_negate A X Y :
  expm log2 fpow A = Ok X -> expm log2 fpow (- A) = Ok Y ->
  X *m Y = 1%:M /\ Y *m X = 1%:M.
Proof.
rewrite !expmE !expm_specE degreeN scalingN selected_UVN.
case: (selected_UV log2 fpow A) => U V /=.
case: ifP => _; last exact: solve_negate.
case solveA: (solve_UV (U, V)) => [X0|] //= [<-].
case solveN: (solve_UV (- U, V)) => [Y0|] //= [<-].
have [XY YX] := solve_negate solveA solveN.
by split; apply: squared_inverse.
Qed.

End Negation.

(** ** The scaling exponent of the degree-13 branch *)

Section ScalingExponent.
Variable F : archiRealFieldType.
Variable log2 : F -> F.
Variable fpow : F -> F -> F.
Variable n : nat.
Implicit Types (A : 'M[F]_n.+1) (s : int).

Hypothesis log2P : forall x : F, 0 < x ->
  2 ^ (Num.ceil (log2 x) - 1) < x <= 2 ^ Num.ceil (log2 x).
Hypothesis fpow_ge0 : forall x y : F, 0 <= x -> 0 <= y <= 1 -> 0 <= fpow x y.

Lemma unit_fraction (p : positive) : 0 <= (1 / of_pos p : F) <= 1.
Proof.
rewrite divr_ge0 ?ler01 ?(ltW (of_pos_gt0 _ _)) //=.
rewrite ler_pdivrMr ?of_pos_gt0 // mul1r of_posE ler1n.
by rewrite -(ltr_nat F) -of_posE of_pos_gt0.
Qed.

Lemma root_ge0 A (p : positive) : 0 <= fpow (_onenorm A) (1 / of_pos p).
Proof. by rewrite fpow_ge0 ?linalg_norm1_ge0 ?unit_fraction. Qed.

Lemma eta5_ge0 A : 0 <= eta5 fpow A.
Proof. by rewrite /eta5 le_min !le_max /d6 /d8 /d10 !root_ge0. Qed.

Lemma scaled_le (e : F) s :
  (2 ^ (- s) * e <= sci 425 2) = (e / sci 425 2 <= 2 ^ s).
Proof.
have two_gt0 : 0 < (2 : F) ^ s by rewrite exprz_gt0 // ltr0n.
rewrite -invr_expz mulrC ler_pdivrMr // ler_pdivrMr ?sci_gt0 //.
by rewrite mulrC.
Qed.

Lemma scaling0_smallest A :
  [/\ 0 <= scaling0 log2 fpow A,
      2 ^ (- scaling0 log2 fpow A) * eta5 fpow A <= sci 425 2
    & forall s, 0 <= s -> 2 ^ (- s) * eta5 fpow A <= sci 425 2 ->
      scaling0 log2 fpow A <= s].
Proof.
have two_gt1 : 1 < (2 : F) by rewrite (ltr_nat F 1 2).
rewrite /scaling0; case: eqP => [->|/eqP e_neq0].
  by split=> //; rewrite mulr0 ltW // sci_gt0.
have e_gt0 : 0 < eta5 fpow A by rewrite lt_def e_neq0 eta5_ge0.
have /log2P/andP[lo hi] : 0 < eta5 fpow A / sci 425 2.
  by rewrite divr_gt0 ?sci_gt0.
split; first by rewrite le_max lexx orbT.
  rewrite scaled_le (le_trans hi) // ler_weXz2l ?(ltW two_gt1) //.
  by rewrite le_max lexx.
move=> s s_ge0; rewrite scaled_le ge_max s_ge0 andbT => le_s.
have := lt_le_trans lo le_s; rewrite ltr_eXz2l //.
by rewrite ltrBlDr ltzD1.
Qed.

End ScalingExponent.

(** The rational ceiling of the binary logarithm. *)

Lemma first_natP (p : pred nat) (b k : nat) :
  (k < b)%N -> p k ->
  p (first_nat p b) /\ (forall j, (j < first_nat p b)%N -> ~~ p j).
Proof.
move=> lt_k pk; rewrite /first_nat.
have has_p : has p (iota 0 b).
  by apply/hasP; exists k => //; rewrite mem_iota add0n.
have lt_f : (find p (iota 0 b) < b)%N by move: (has_p); rewrite has_find size_iota.
split; first by have := nth_find 0%N has_p; rewrite nth_iota.
move=> j lt_j; have := before_find 0%N lt_j.
by rewrite nth_iota ?add0n ?(ltn_trans lt_j) // => ->.
Qed.

Lemma natr_lt_pow2 (x : rat) : x < 2%:R ^+ (Num.truncn x).+1.
Proof.
apply: lt_le_trans (truncnS_gt x) _.
by rewrite -natrX ler_nat ltnW // ltn_expl.
Qed.

Lemma clog2_ratP (x : rat) :
  0 < x -> 2 ^ (clog2_rat x - 1) < x <= 2 ^ clog2_rat x.
Proof.
move=> x_gt0; rewrite /clog2_rat x_gt0; case: ifP => [x_gt1|/negbT x_le1].
  have [] := @first_natP (fun k => x <= 2%:R ^+ k) (Num.truncn x).+2
               (Num.truncn x).+1 (leqnn _) (ltW (natr_lt_pow2 x)).
  case: (first_nat _ _) => [|k] le_x small; first by rewrite expr0 leNgt x_gt1 in le_x.
  rewrite -exprnP le_x andbT.
  have -> : k.+1%:Z - 1 = k by rewrite -addn1 PoszD addrK.
  by rewrite -exprnP ltNge; apply: small.
rewrite -leNgt in x_le1.
have witness : 2%:R ^- (Num.truncn x^-1).+1 < x.
  rewrite -[ltRHS]invrK ltf_pV2 ?posrE ?invr_gt0 ?exprn_gt0 ?ltr0n //.
  exact: natr_lt_pow2.
have [] := @first_natP (fun j => 2%:R ^- j.+1 < x) (Num.truncn x^-1).+1
             (Num.truncn x^-1) (leqnn _) witness.
case: (first_nat _ _) => [|j] lt_x small.
  by rewrite oppr0 expr0z x_le1 andbT sub0r -exprnN.
have -> : - j.+1%:Z - 1 = - (j.+2%:Z).
  by rewrite -opprD -[in RHS]addn1 PoszD.
by rewrite -!exprnN lt_x /= leNgt; apply: small.
Qed.

Lemma log2c_ratP (x : rat) :
  0 < x ->
  2 ^ (Num.ceil (log2c_rat x) - 1) < x <= 2 ^ Num.ceil (log2c_rat x).
Proof. by move=> x_gt0; rewrite /log2c_rat intrKceil clog2_ratP. Qed.

Lemma fpow_rat_ge0 (x y : rat) : 0 <= x -> 0 <= y <= 1 -> 0 <= fpow_rat x y.
Proof.
move=> x_ge0 /andP[y_ge0 y_le1]; rewrite /fpow_rat.
case: ifP => _; first by case: ifP.
have -> : 1 + (x - 1) * y = (1 - y) + x * y by rewrite mulrBl mul1r addrCA addrC.
by rewrite addr_ge0 ?subr_ge0 ?mulr_ge0.
Qed.

(** ** Matrices with square zero: every branch is exact *)

Section SquareZero.
Variable F : archiRealFieldType.
Variable log2 : F -> F.
Variable fpow : F -> F -> F.
Variable n : nat.
Implicit Types (A B H : 'M[F]_n.+1) (c : F) (s : int).

Lemma square_zero_exp B k : B ^+ 2 = 0 -> B ^+ k.+2 = 0.
Proof. by move=> B2; rewrite -addn2 exprD B2 mulr0. Qed.

Lemma square_zero_scale c B : B ^+ 2 = 0 -> (c *: B) ^+ 2 = 0.
Proof. by move=> B2; rewrite exprZn B2 scaler0. Qed.

Lemma one_minus_unit H :
  H ^+ 2 = 0 -> 1 - H \in unitmx /\ invmx (1 - H) = 1 + H.
Proof.
move=> H2.
have inv : (1 - H) *m (1 + H) = 1%:M.
  rewrite mulmxE mulrDr mulr1 mulrBl mul1r -expr2 H2 subr0.
  by rewrite addrAC addrK.
have [unit_H _] := mulmx1_unit inv.
by split=> //; rewrite -[LHS]mulmx1 -inv mulKmx.
Qed.

Lemma one_plus_exp B m : B ^+ 2 = 0 -> (1 + B) ^+ m = 1 + m%:R *: B.
Proof.
move=> B2; elim: m => [|m IH]; first by rewrite expr0 scale0r addr0.
rewrite exprS IH mulrDl mul1r mulrDr mulr1 -scalerAr -expr2 B2 scaler0 addr0.
by rewrite -addrA -[in RHS]natr1 scalerDl scale1r.
Qed.

Lemma solve_half c B :
  B ^+ 2 = 0 -> c != 0 -> solve_UV (c *: B, (c *+ 2) *: 1%:M) = Ok (1 + B).
Proof.
move=> B2 c_neq0; rewrite solve_UV_cases /=.
have two_neq0 : (2 : F) != 0 by rewrite pnatr_eq0.
have c2_neq0 : c *+ 2 != 0 by rewrite -mulr_natr mulf_neq0.
pose H := 2^-1 *: B.
have H2 : H ^+ 2 = 0 by apply: square_zero_scale.
have cB : c *: B = (c *+ 2) *: H.
  by rewrite scalerA -mulr_natr -mulrA divff // mulr1.
have [unit_H inv_H] := one_minus_unit H2.
have -> : (c *+ 2) *: 1%:M - c *: B = (c *+ 2) *: (1 - H).
  by rewrite cB scalerBr.
have -> : c *: B + (c *+ 2) *: 1%:M = (c *+ 2) *: (1 + H).
  by rewrite cB scalerDr addrC.
rewrite detZ mulf_eq0 expf_eq0 (negbTE c2_neq0) andbF /=.
have /negbTE-> : \det (1 - H) != 0 by rewrite -unitfE -unitmxE.
rewrite invmxZ ?unitmxZ ?unitfE // inv_H.
rewrite -scalemxAl -scalemxAr scalerA mulVf // scale1r mulmxE -expr2.
rewrite (one_plus_exp 2 H2); congr (Ok (_ + _)).
by rewrite scalerA divff // scale1r.
Qed.

Section Branches.
Variable A : 'M[F]_n.+1.
Hypothesis A2 : A ^+ 2 = 0.

Lemma pade3_UV_sqz : pade3_UV A = (of_pos 60 *: A, (of_pos 60 *+ 2) *: 1%:M).
Proof.
by rewrite /pade3_UV A2 !scaler0 !add0r -scalemxAr mulmx1.
Qed.

Lemma pade5_UV_sqz :
  pade5_UV A = (of_pos 15120 *: A, (of_pos 15120 *+ 2) *: 1%:M).
Proof.
by rewrite /pade5_UV (square_zero_exp 2) // A2 !scaler0 !add0r -scalemxAr
           mulmx1.
Qed.

Lemma pade7_UV_sqz :
  pade7_UV A = (of_pos 8648640 *: A, (of_pos 8648640 *+ 2) *: 1%:M).
Proof.
by rewrite /pade7_UV (square_zero_exp 4) // (square_zero_exp 2) // A2
           !scaler0 !add0r -scalemxAr mulmx1.
Qed.

Lemma pade9_UV_sqz :
  pade9_UV A = (of_pos 8821612800 *: A, (of_pos 8821612800 *+ 2) *: 1%:M).
Proof.
by rewrite /pade9_UV (square_zero_exp 6) // (square_zero_exp 4) //
           (square_zero_exp 2) // A2 !scaler0 !add0r -scalemxAr mulmx1.
Qed.

Lemma pade13_UV_sqz s :
  pade13_UV A s
  = (of_pos 32382376266240000 *: (2 ^ (- s) *: A),
     (of_pos 32382376266240000 *+ 2) *: 1%:M).
Proof.
have B2 : (2 ^ (- s) *: A) ^+ 2 = 0 by apply: square_zero_scale.
rewrite /pade13_UV /= (square_zero_exp 4) // (square_zero_exp 2) // B2.
by rewrite !scaler0 !mul0mx !add0r -scalemxAr mulmx1.
Qed.

Lemma unscale s : 0 <= s -> (2 ^ range_len s)%:R *: (2 ^ (- s) *: A) = A.
Proof.
case: s => // k _; rewrite /= scalerA natrX -exprnN divff ?scale1r //.
by rewrite expf_neq0 // pnatr_eq0.
Qed.

Lemma expm_square_zero : expm log2 fpow A = Ok (1 + A).
Proof.
have neq0 p : of_pos p != 0 :> F by rewrite gt_eqF // of_pos_gt0.
rewrite expmE /expm_spec.
case: ifP => _; first by rewrite pade3_UV_sqz solve_half.
case: ifP => _; first by rewrite pade5_UV_sqz solve_half.
case: ifP => _; first by rewrite pade7_UV_sqz solve_half.
case: ifP => _; first by rewrite pade9_UV_sqz solve_half.
have B2 s : (2 ^ (- s) *: A) ^+ 2 = 0 by apply: square_zero_scale.
rewrite /= pade13_UV_sqz (solve_half (B2 _) (neq0 _)) /=.
by rewrite squaredE (one_plus_exp _ (B2 _)) unscale // scaling_ge0.
Qed.

End Branches.

End SquareZero.

Lemma example_N_square : example_N ^+ 2 = 0.
Proof. by rewrite expr2 -mulmxE /example_N mul_delta_mx_0. Qed.

Lemma example_N_opp_square : (- example_N) ^+ 2 = 0.
Proof. by rewrite sqrrN example_N_square. Qed.

(** ** What no run assigns *)

Section Frozen.
Variable F : archiRealFieldType.
Variable log2 : F -> F.
Variable fpow : F -> F -> F.
Variable n : nat.
Implicit Types (A : 'M[F]_n.+1) (b : bool).

Lemma frozen_init A b : frozen b (__init__ A b).
Proof. by []. Qed.

Lemma expm_body_frozen b : keeps (frozen b) (@expm_body F log2 fpow n).
Proof. by apply: keeps_expm_body => ? []. Qed.

Lemma expm_body_init A b l :
  exists2 h, expm_body log2 fpow (__init__ A b, l)
             = (expm log2 fpow A, (h, l ++ expm_calls log2 fpow A))
           & frozen b h /\ cache_ok fpow A h.
Proof.
have [h eq_run ok_h] := expm_body_yields log2 l (cache_ok_init fpow A b).
have := expm_body_frozen (st := (__init__ A b, l)) (frozen_init A b).
rewrite eq_run -expm_runE /= => frozen_h.
by exists h.
Qed.

End Frozen.

(** ** The loop of [_onenorm_matrix_power_nnm] in closed form *)

Section PowerLoop.
Variable F : archiRealFieldType.
Variable n : nat.
Implicit Types (A : 'M[F]_n.+1) (p : nat).

Lemma onenormMatrixPowerNNM_closed A p :
  onenormMatrixPowerNNM A p = np_max ((A ^+ p)^T *m np_ones F n.+1).
Proof. by rewrite /onenormMatrixPowerNNM /= iter_mulmxE trmx_exp. Qed.

Lemma signed_colsum_le A j :
  (A^T *m np_ones F n.+1) j ord0 <= linalg_norm1 A.
Proof.
apply: le_trans (colsum_le_norm1 A j); rewrite mxE /colsum.
by apply: ler_sum => i _; rewrite !mxE mulr1 ler_norm.
Qed.

Lemma onenormMatrixPowerNNM_le A p :
  onenormMatrixPowerNNM A p <= _onenorm (A ^+ p).
Proof.
rewrite onenormMatrixPowerNNM_closed /np_max /_onenorm.
by apply: bigmax_le => [|j _]; apply: signed_colsum_le.
Qed.

End PowerLoop.

(** ** Each property is memoized *)

Section Memoized.
Variable F : archiRealFieldType.
Variable fpow : F -> F -> F.
Variable n : nat.
Implicit Types (st : state F n).

Lemma memo_hit (T : Type) (f : _ExpmPadeHelper F n -> option T)
    (k : M F n T) st v :
  f st.1 = Some v -> (c <~ read f ;; if c is Some x then ret x else k) st
                     = (Ok v, st).
Proof. by case: st => h l /=; rewrite /bind /read /= => ->. Qed.

Lemma A2_memoized st : memoized (@_A2 F n) (@A2 F n) st.
Proof.
split; [| exact: A2_twice | | exact: memo_hit].
- by case: st => -[a [a2|] *].
- by case: st => -[a [a2|] *].
Qed.

Lemma A4_memoized st : memoized (@_A4 F n) (@A4 F n) st.
Proof.
split; [| exact: A4_twice | | exact: memo_hit].
- by case: st => -[a [a2|] [a4|] *].
- by case: st => -[a [a2|] [a4|] *].
Qed.

Lemma A6_memoized st : memoized (@_A6 F n) (@A6 F n) st.
Proof.
split; [| exact: A6_twice | | exact: memo_hit].
- by case: st => -[a [a2|] [a4|] [a6|] *].
- by case: st => -[a [a2|] [a4|] [a6|] *].
Qed.

Lemma A8_memoized st : memoized (@_A8 F n) (@A8 F n) st.
Proof.
split; [| exact: A8_twice | | exact: memo_hit].
- by case: st => -[a [a2|] [a4|] [a6|] [a8|] *].
- by case: st => -[a [a2|] [a4|] [a6|] [a8|] *].
Qed.

Lemma A10_memoized st : memoized (@_A10 F n) (@A10 F n) st.
Proof.
split; [| exact: A10_twice | | exact: memo_hit].
- by case: st => -[a [a2|] [a4|] [a6|] a8 [a10|] *].
- by case: st => -[a [a2|] [a4|] [a6|] a8 [a10|] *].
Qed.

Lemma d4_tight_memoized st : memoized (@_d4_exact F n) (@d4_tight F fpow n) st.
Proof.
split; [| exact: d4_tight_twice | | exact: memo_hit].
- by case: st => -[a [a2|] [a4|] a6 a8 a10 [d4|] *].
- by case: st => -[a [a2|] [a4|] a6 a8 a10 [d4|] *].
Qed.

Lemma d6_tight_memoized st : memoized (@_d6_exact F n) (@d6_tight F fpow n) st.
Proof.
split; [| exact: d6_tight_twice | | exact: memo_hit].
- by case: st => -[a [a2|] [a4|] [a6|] a8 a10 d4 [d6|] *].
- by case: st => -[a [a2|] [a4|] [a6|] a8 a10 d4 [d6|] *].
Qed.

Lemma d8_tight_memoized st : memoized (@_d8_exact F n) (@d8_tight F fpow n) st.
Proof.
split; [| exact: d8_tight_twice | | exact: memo_hit].
- by case: st => -[a [a2|] [a4|] [a6|] [a8|] a10 d4 d6 [d8|] *].
- by case: st => -[a [a2|] [a4|] [a6|] [a8|] a10 d4 d6 [d8|] *].
Qed.

Lemma d10_tight_memoized st : memoized (@_d10_exact F n) (@d10_tight F fpow n) st.
Proof.
split; [| exact: d10_tight_twice | | exact: memo_hit].
- by case: st => -[a [a2|] [a4|] [a6|] a8 [a10|] d4 d6 d8 [d10|] *].
- by case: st => -[a [a2|] [a4|] [a6|] a8 [a10|] d4 d6 d8 [d10|] *].
Qed.

End Memoized.

(** ** Degrees *)

Section Degrees.
Variable F : archiRealFieldType.
Variable log2 : F -> F.
Variable fpow : F -> F -> F.
Variable n : nat.
Implicit Types (A : 'M[F]_n.+1).

Lemma degree_le5 A :
  (degree log2 fpow A <= 5)%N = use3 log2 fpow A || use5 log2 fpow A.
Proof. by rewrite /degree; do 4![case: ifP => _ //]. Qed.

Lemma degree_zero :
  (forall y : F, 0 < y -> fpow 0 y = 0) ->
  degree log2 fpow (0 : 'M[F]_n.+1) = 3%N.
Proof. by move=> fpow0; rewrite /degree use3_zero. Qed.

End Degrees.

(** * Further properties of the code *)

Section NormEstimator.
Variable F : archiRealFieldType.
Variable log2 : F -> F.
Variable n : nat.
Implicit Types (A B : 'M[F]_n.+1) (c : F) (m p : nat).

(** X1.  The loop of [_onenorm_matrix_power_nnm(A, p)] computes the
    largest column sum of [A^p], signs included: [v = (A^p)^T . ones].
    For every square [A] this is at most the one-norm of [A^p]. *)
Theorem onenorm_matrix_power_nnm_column_sums A p :
  _onenorm_matrix_power_nnm (of_mx A) p%:R
  = Ok (np_max ((A ^+ p)^T *m np_ones F n.+1))
  /\ np_max ((A ^+ p)^T *m np_ones F n.+1) <= _onenorm (A ^+ p).
Proof.
rewrite onenorm_matrix_power_nnmE -onenormMatrixPowerNNM_closed.
by split=> //; apply: onenormMatrixPowerNNM_le.
Qed.

(** X2.  On a matrix with non-negative entries
    [_onenorm_matrix_power_nnm(A, p)] is what its docstring says: the
    one-norm of the matrix power [A^p]. *)
Theorem onenorm_matrix_power_nnm_exact_on_nonneg A p :
  nonneg_mx A ->
  _onenorm_matrix_power_nnm (of_mx A) p%:R = Ok (_onenorm (A ^+ p)).
Proof.
by move=> A_ge0; rewrite onenorm_matrix_power_nnmE
                         onenormMatrixPowerNNM_nonneg.
Qed.

(** X3.  The two checks of [_onenorm_matrix_power_nnm] in their order:
    an invalid [p] is reported as such whatever [A] is; with a valid [p],
    an array whose shape is not [(k, k)] is reported as not square; and
    an array of shape [(k, k)], the empty [(0, 0)] included, raises
    neither of the two errors. *)
Theorem onenorm_matrix_power_nnm_messages (A : ndarray F) (p : F) :
  let r := _onenorm_matrix_power_nnm A p in
  [/\ (p \isn't a Num.nat)
        ==> raises_with "expected non-negative integer p" r,
      (p \is a Num.nat) && ~~ is_square_shape (shape A)
        ==> raises_with "expected A to be like a square matrix" r
    & (p \is a Num.nat) && is_square_shape (shape A)
        ==> ~~ raises_with "expected non-negative integer p" r
            && ~~ raises_with "expected A to be like a square matrix" r].
Proof.
rewrite /= onenorm_matrix_power_nnm_cases.
case: (p \is a Num.nat); case: (is_square_shape _) => //=.
by split=> //; case: (nth _ _ _).
Qed.

(** X4.  [_ell(A, m)] returns 0 through its zero-norm special case
    whenever the power [abs(A)^(2m+1)] vanishes, for every [m] and
    whatever [log2] would return: no division and no logarithm is
    evaluated. *)
Theorem ell_zero_on_nilpotent_abs A m :
  np_abs A ^+ (2 * m + 1) = 0 -> _ell log2 A m = Ok 0.
Proof. exact: _ell_early_return. Qed.

(** X5.  [_ell(A, m)] sees only the absolute values of the entries of
    [A]: two matrices with the same [abs] get the same result, errors
    included. *)
Theorem ell_depends_on_abs A B m :
  np_abs A = np_abs B -> _ell log2 A m = _ell log2 B m.
Proof. exact: _ell_eq_abs. Qed.

(** X6.  [_onenorm] is a sub-multiplicative norm: non-negative, zero only
    on the zero matrix, absolutely homogeneous, sub-additive and
    sub-multiplicative. *)
Theorem onenorm_is_norm A B c :
  [/\ 0 <= _onenorm A,
      (_onenorm A == 0) = (A == 0),
      _onenorm (c *: A) = `|c| * _onenorm A,
      _onenorm (A + B) <= _onenorm A + _onenorm B
    & _onenorm (A *m B) <= _onenorm A * _onenorm B].
Proof.
split.
- exact: linalg_norm1_ge0.
- exact: linalg_norm1_eq0.
- exact: linalg_norm1Z.
- exact: linalg_norm1D.
- exact: linalg_norm1M.
Qed.

End NormEstimator.

Section HelperCache.
Variable F : archiRealFieldType.
Variable log2 : F -> F.
Variable fpow : F -> F -> F.
Variable n : nat.
Implicit Types (A : 'M[F]_n.+1) (st : state F n) (l : seq call) (b : bool).

(** X7.  Each of the nine properties [A2 .. A10], [d4_tight .. d10_tight]
    is memoized: after an access its attribute is set, a second access
    returns the same value and changes nothing, no call is logged, and an
    attribute that is already set is returned as it is, without any
    computation. *)
Theorem properties_are_memoized st :
  [/\ memoized (@_A2 F n) (@A2 F n) st,
      memoized (@_A4 F n) (@A4 F n) st,
      memoized (@_A6 F n) (@A6 F n) st,
      memoized (@_A8 F n) (@A8 F n) st
    & memoized (@_A10 F n) (@A10 F n) st]
  /\ [/\ memoized (@_d4_exact F n) (@d4_tight F fpow n) st,
         memoized (@_d6_exact F n) (@d6_tight F fpow n) st,
         memoized (@_d8_exact F n) (@d8_tight F fpow n) st
       & memoized (@_d10_exact F n) (@d10_tight F fpow n) st].
Proof.
split; split.
- exact: A2_memoized.
- exact: A4_memoized.
- exact: A6_memoized.
- exact: A8_memoized.
- exact: A10_memoized.
- exact: d4_tight_memoized.
- exact: d6_tight_memoized.
- exact: d8_tight_memoized.
- exact: d10_tight_memoized.
Qed.

(** X8.  When [expm(A)] ends, with a result or with an error, every
    attribute its helper has cached holds the value it stands for:
    [_A2k] is [A^(2k)] and [_dk_exact] is [onenorm(A^k)^(1/k)]; [A],
    [ident] and [structure] are as [__init__] left them. *)
Theorem expm_leaves_cache_consistent A :
  cache_ok fpow A (expm_run log2 fpow A).2.1.
Proof. exact: expm_final_cache. Qed.

(** X9.  Laziness, degrees 3 and 5: a run of [expm] that selects one of
    them computes neither [A^8] nor [A^10] nor their norm bounds. *)
Theorem expm_low_degree_is_lazy A :
  (degree log2 fpow A <= 5)%N -> no_order8 (expm_run log2 fpow A).2.1.
Proof. by rewrite degree_le5; apply: expm_final_no_order8. Qed.

(** X10.  Laziness, degrees 3 to 9: only a run of [expm] that reaches
    the degree-13 branch computes [A^10] or [d10]. *)
Theorem expm_skips_tenth_power A :
  degree log2 fpow A != 13%N -> no_order10 (expm_run log2 fpow A).2.1.
Proof. exact: expm_final_no_order10. Qed.

(** X11.  The helper never reads [use_exact_onenorm] and never estimates
    a norm: created with either value of the flag and run from any log,
    the body of [expm] returns what [expm(A)] returns and logs the same
    calls, the flag is as it was and the four [_dk_approx] attributes are
    still unset. *)
Theorem helper_flag_unused A b l :
  exists2 h, expm_body log2 fpow (__init__ A b, l)
             = (expm log2 fpow A, (h, l ++ expm_calls log2 fpow A))
           & frozen b h /\ cache_ok fpow A h.
Proof. exact: expm_body_init. Qed.

End HelperCache.

Section Results.
Variable F : archiRealFieldType.
Variable log2 : F -> F.
Variable fpow : F -> F -> F.
Variable n : nat.
Implicit Types (A X Y : 'M[F]_n.+1) (s : int).

(** X12.  The only error of [expm(A)] is the [LinAlgError] of the linear
    solve, raised exactly when [V - U] is singular for the [(U, V)] of
    the selected evaluator; otherwise the result is
    [(V - U)^-1 (U + V)], squared [s] times in the degree-13 branch.
    The checks of [_onenorm_matrix_power_nnm] and the guarded divisions
    never fail in a run of [expm]. *)
Theorem expm_raises_only_singular A :
  let UV := selected_UV log2 fpow A in
  expm log2 fpow A =
    if \det (UV.2 - UV.1) == 0 then Raise (LinAlgError "Singular matrix")
    else
      let X := invmx (UV.2 - UV.1) *m (UV.1 + UV.2) in
      Ok (if degree log2 fpow A == 13%N
          then squared (range_len (scaling log2 fpow A)) X else X).
Proof.
rewrite /= expmE expm_specE solve_UV_cases.
by case: ifP => _; case: ifP.
Qed.

(** X13.  The result of [expm(A)] commutes with [A]. *)
Theorem expm_commutes_with_input A X :
  expm log2 fpow A = Ok X -> A *m X = X *m A.
Proof. exact: expm_comm. Qed.

(** X14.  The selection does not see the sign of the input: [-A] gets the
    degree and the scaling exponent of [A], and the evaluator returns
    [(-U, V)] for it: [U] is odd and [V] is even in [A]. *)
Theorem expm_selection_even A :
  [/\ degree log2 fpow (- A) = degree log2 fpow A,
      scaling log2 fpow (- A) = scaling log2 fpow A
    & selected_UV log2 fpow (- A)
      = (- (selected_UV log2 fpow A).1, (selected_UV log2 fpow A).2)].
Proof.
split; [exact: degreeN | exact: scalingN | exact: selected_UVN].
Qed.

(** X15.  When [expm] returns for [A] and for [-A], the two results are
    inverse to each other, exactly. *)
Theorem expm_negation_inverse A X Y :
  expm log2 fpow A = Ok X -> expm log2 fpow (- A) = Ok Y ->
  X *m Y = 1%:M /\ Y *m X = 1%:M.
Proof. exact: expm_negate. Qed.

(** X16.  The comment of line 214: with a logarithm whose ceiling is
    exact and a power that is non-negative on non-negative bases, the
    first scaling exponent of the degree-13 branch is the smallest
    [s >= 0] with [2^-s eta_5 <= theta_13]. *)
Theorem scaling_exponent_smallest A :
  (forall x : F, 0 < x ->
     2 ^ (Num.ceil (log2 x) - 1) < x <= 2 ^ Num.ceil (log2 x)) ->
  (forall x y : F, 0 <= x -> 0 <= y <= 1 -> 0 <= fpow x y) ->
  [/\ 0 <= scaling0 log2 fpow A,
      2 ^ (- scaling0 log2 fpow A) * eta5 fpow A <= sci 425 2
    & forall s, 0 <= s -> 2 ^ (- s) * eta5 fpow A <= sci 425 2 ->
      scaling0 log2 fpow A <= s].
Proof. by move=> log2P fpow_ge0; apply: scaling0_smallest. Qed.

(** X17.  On a matrix with [A . A = 0], [expm] is exact, [e^A = I + A],
    whichever degree it selects and whatever [log2] and the power
    return; the linear solve cannot fail. *)
Theorem expm_exact_on_square_zero A :
  A ^+ 2 = 0 -> expm log2 fpow A = Ok (1 + A).
Proof. exact: expm_square_zero. Qed.

End Results.

(** ** Facts about the concrete inputs *)

Lemma example_N_nonneg : nonneg_mx example_N.
Proof. by apply/nonneg_mxP => i j; rewrite mxE; case: (_ && _). Qed.

Lemma example_N_abs_cube : np_abs example_N ^+ (2 * 1 + 1) = 0.
Proof.
rewrite np_abs_nonneg ?example_N_nonneg //.
exact: (square_zero_exp 1 example_N_square).
Qed.

Lemma degree_zero_rat : degree log2_rat fpow_rat (0 : 'M[rat]_2) = 3%N.
Proof. exact: degree_zero fpow_rat0. Qed.

(** * The further properties at concrete inputs *)

Lemma onenorm_matrix_power_nnm_exact_on_nonneg_witness :
  nonneg_mx example_N
  /\ _onenorm_matrix_power_nnm (of_mx example_N) 3%:R
     = Ok (_onenorm (example_N ^+ 3)).
Proof.
split; first exact: example_N_nonneg.
exact: (onenorm_matrix_power_nnm_exact_on_nonneg 3 example_N_nonneg).
Defined.

Lemma ell_zero_on_nilpotent_abs_witness :
  np_abs example_N ^+ (2 * 1 + 1) = 0 /\ _ell log2_rat example_N 1 = Ok 0.
Proof.
split; first exact: example_N_abs_cube.
exact: (ell_zero_on_nilpotent_abs log2_rat example_N_abs_cube).
Defined.

Lemma ell_depends_on_abs_witness :
  np_abs (- example_I) = np_abs example_I
  /\ _ell log2_rat (- example_I) 3 = _ell log2_rat example_I 3.
Proof.
split; first exact: np_absN.
exact: (ell_depends_on_abs log2_rat 3 (np_absN example_I)).
Defined.

Lemma expm_low_degree_is_lazy_witness :
  (degree log2_rat fpow_rat (0 : 'M[rat]_2) <= 5)%N
  /\ no_order8 (expm_run log2_rat fpow_rat (0 : 'M[rat]_2)).2.1.
Proof.
have le5 : (degree log2_rat fpow_rat (0 : 'M[rat]_2) <= 5)%N.
  by rewrite degree_zero_rat.
by split=> //; apply: expm_low_degree_is_lazy.
Defined.

Lemma expm_skips_tenth_power_witness :
  degree log2_rat fpow_rat (0 : 'M[rat]_2) != 13%N
  /\ no_order10 (expm_run log2_rat fpow_rat (0 : 'M[rat]_2)).2.1.
Proof.
have neq13 : degree log2_rat fpow_rat (0 : 'M[rat]_2) != 13%N.
  by rewrite degree_zero_rat.
by split=> //; apply: expm_skips_tenth_power.
Defined.

Lemma expm_commutes_with_input_witness :
  expm log2_rat fpow_rat example_N = Ok (1 + example_N)
  /\ example_N *m (1 + example_N) = (1 + example_N) *m example_N.
Proof.
have run := expm_square_zero log2_rat fpow_rat example_N_square.
by split=> //; apply: expm_commutes_with_input run.
Defined.

Lemma expm_negation_inverse_witness :
  [/\ expm log2_rat fpow_rat example_N = Ok (1 + example_N),
      expm log2_rat fpow_rat (- example_N) = Ok (1 - example_N)
    & (1 + example_N) *m (1 - example_N) = 1%:M
      /\ (1 - example_N) *m (1 + example_N) = 1%:M].
Proof.
have run := expm_square_zero log2_rat fpow_rat example_N_square.
have runN := expm_square_zero log2_rat fpow_rat example_N_opp_square.
by split=> //; apply: expm_negation_inverse run runN.
Defined.

Lemma scaling_exponent_smallest_witness :
  [/\ forall x : rat, 0 < x ->
        2 ^ (Num.ceil (log2c_rat x) - 1) < x <= 2 ^ Num.ceil (log2c_rat x),
      forall x y : rat, 0 <= x -> 0 <= y <= 1 -> 0 <= fpow_rat x y
    & 2 ^ (- scaling0 log2c_rat fpow_rat example_3)
      * eta5 fpow_rat example_3 <= sci 425 2].
Proof.
split; [exact: log2c_ratP | exact: fpow_rat_ge0 |].
by have [] := @scaling_exponent_smallest rat log2c_rat fpow_rat 0 example_3
                log2c_ratP fpow_rat_ge0.
Defined.

Lemma expm_exact_on_square_zero_witness :
  example_N ^+ 2 = 0
  /\ expm log2_rat fpow_rat example_N = Ok (1 + example_N).
Proof.
split; first exact: example_N_square.
exact: (expm_exact_on_square_zero log2_rat fpow_rat example_N_square).
Defined.
